(** * AudioEngine: tempo detection, deck sync, voice unit and effect presets

    A shallow embedding of [utils/AudioEngine.ts] (classes [AudioEngine],
    [VoiceEngine] and [Deck]) together with the properties of the
    specification that concern it.

    Modelling conventions.
    - A JavaScript [number] that carries a real quantity (sample value, BPM,
      playback rate, effect parameter) is an exact rational [Q]; array
      indices, sample counts and the sample rate are integers [Z].
      Floating-point rounding of divisions is not modelled.
    - [Tone.js] nodes are represented by the parameters the engine writes to
      them; asynchronous operations ([mic.open], [recorder.stop],
      [player.load]) take their outcome as an argument.
    - [dispatchEvent] appends to an event log carried in the state. *)

From Stdlib Require Import ZArith QArith Qround Qabs List Sorted Bool Lia.
Import ListNotations.

Local Open Scope Z_scope.

(** ** JavaScript numbers *)

Module Num.

(** [x > y] and [x < y] on numbers. *)
Definition gtb (x y : Q) : bool := negb (Qle_bool x y).
Definition ltb (x y : Q) : bool := negb (Qle_bool y x).

(** [x === y] on numbers. *)
Definition eqb (x y : Q) : bool := Qeq_bool x y.

(** [Math.floor] and [Math.round] (ties go towards +infinity). *)
Definition Math_floor (x : Q) : Z := Qfloor x.
Definition Math_round (x : Q) : Z := Qfloor (x + (1 # 2))%Q.

(** A number is integral. *)
Definition is_integer (x : Q) : Prop := exists n : Z, x == inject_Z n.

End Num.

(** ** Ordinary objects used as maps with numeric keys

    [groups] in [detectBPM] is an ordinary object whose property names are
    the decimal strings of non-negative integers.  Property enumeration
    ([for ... in]) follows [OrdinaryOwnPropertyKeys]: names that are array
    indices (integers in [0, 2^32 - 2]) come first, in ascending numeric
    order, whatever the order of creation; the remaining names follow in
    order of creation.  An object is the list of its (key, value) pairs in
    enumeration order. *)

Module JSObject.

Definition t : Type := list (Z * Z).

Definition empty : t := [].

Definition is_array_index (k : Z) : bool :=
  (0 <=? k) && (k <? 2 ^ 32 - 1).

(** [o[k]], [None] standing for [undefined]. *)
Fixpoint get (o : t) (k : Z) : option Z :=
  match o with
  | [] => None
  | (k', v) :: o' => if k' =? k then Some v else get o' k
  end.

(** Assignment to an existing property keeps its position. *)
Fixpoint update (o : t) (k v : Z) : t :=
  match o with
  | [] => []
  | (k', v') :: o' =>
      if k' =? k then (k, v) :: o' else (k', v') :: update o' k v
  end.

(** Creation of an array-index property: placed before the first property
    that is not an array index or has a greater index. *)
Fixpoint insert_index (o : t) (k v : Z) : t :=
  match o with
  | [] => [(k, v)]
  | (k', v') :: o' =>
      if negb (is_array_index k') || (k <? k')
      then (k, v) :: (k', v') :: o'
      else (k', v') :: insert_index o' k v
  end.

(** [o[k] = v]. *)
Definition set (o : t) (k v : Z) : t :=
  match get o k with
  | Some _ => update o k v
  | None =>
      if is_array_index k then insert_index o k v else o ++ [(k, v)]
  end.

(** The property names in [for ... in] order. *)
Definition keys (o : t) : list Z := map fst o.

End JSObject.

(** ** Deck: tempo detection *)

Module Tempo.

(** [Tone.ToneAudioBuffer]: the left channel and the sample rate. *)
Record ToneAudioBuffer : Type := mkBuffer {
  channelData : list Q;
  sampleRate : Z
}.

Definition step : Z := 4.
Definition threshold : Q := 6 # 10.

(** [channelData[i]]; [None] is [undefined] (index outside the array). *)
Definition sample_at (data : list Q) (i : Z) : option Q :=
  if i <? 0 then None else nth_error data (Z.to_nat i).

(** [channelData[i] > threshold]; a comparison with [undefined] is false. *)
Definition above_threshold (s : option Q) : bool :=
  match s with
  | Some x => Num.gtb x threshold
  | None => false
  end.

(** The peak-picking loop
    [for (let i = 0; i < channelData.length; i += step) { ... }],
    started at index [i] with [peaks] collected so far.  [get] reads the
    array and [len] is its length.  [None]: the loop has not finished
    within [fuel] iterations. *)
Fixpoint scan_peaks (fuel : nat) (get : Z -> option Q) (len sr : Z)
         (i : Z) (peaks : list Z) : option (list Z) :=
  if i <? len then
    match fuel with
    | O => None
    | S fuel' =>
        if above_threshold (get i)
        then scan_peaks fuel' get len sr
               (i + Num.Math_floor (inject_Z sr / 4)%Q + step) (peaks ++ [i])
        else scan_peaks fuel' get len sr (i + step) peaks
    end
  else Some peaks.

(** [intervals.push(peaks[i] - peaks[i - 1])] for [i = 1 .. length - 1]. *)
Fixpoint intervals_of (peaks : list Z) : list Z :=
  match peaks with
  | p0 :: (p1 :: _) as rest => (p1 - p0) :: intervals_of rest
  | _ => []
  end.

(** [Math.round(interval / 100) * 100]. *)
Definition quantize (interval : Z) : Z :=
  Num.Math_round (inject_Z interval / 100)%Q * 100.

(** One call of the [forEach] callback:
    [groups[rounded] = (groups[rounded] || 0) + 1]. *)
Definition add_interval (groups : JSObject.t) (interval : Z) : JSObject.t :=
  let rounded := quantize interval in
  let old := match JSObject.get groups rounded with
             | Some c => c
             | None => 0
             end in
  JSObject.set groups rounded (old + 1).

Definition histogram (intervals : list Z) : JSObject.t :=
  fold_left add_interval intervals JSObject.empty.

(** One iteration of [for (const interval in groups)] on the pair
    [(maxCount, bestInterval)]. *)
Definition pick (acc : Z * Z) (entry : Z * Z) : Z * Z :=
  let '(maxCount, bestInterval) := acc in
  let '(interval, count) := entry in
  if count >? maxCount then (count, interval) else (maxCount, bestInterval).

Definition most_common (groups : JSObject.t) : Z * Z :=
  fold_left pick groups (0, 0).

Definition bestInterval_of (intervals : list Z) : Z :=
  snd (most_common (histogram intervals)).

(** The part of [detectBPM] after the peak-picking loop. *)
Definition bpm_of_peaks (sr : Z) (peaks : list Z) : Q :=
  if Z.of_nat (length peaks) <? 10 then 0%Q
  else
    let bestInterval := bestInterval_of (intervals_of peaks) in
    if bestInterval =? 0 then 0%Q
    else
      let bpm := (inject_Z (60 * sr) / inject_Z (bestInterval * step))%Q in
      if Num.ltb bpm 70 then (bpm * 2)%Q
      else if Num.gtb bpm 180 then (bpm / 2)%Q
      else inject_Z (Num.Math_round bpm).

(** The peaks found in a buffer, with one unit of fuel per sample. *)
Definition find_peaks (buffer : ToneAudioBuffer) : option (list Z) :=
  let data := channelData buffer in
  scan_peaks (length data) (sample_at data) (Z.of_nat (length data))
             (sampleRate buffer) 0 [].

(** [Deck.detectBPM]. *)
Definition detectBPM (buffer : ToneAudioBuffer) : option Q :=
  match find_peaks buffer with
  | Some peaks => Some (bpm_of_peaks (sampleRate buffer) peaks)
  | None => None
  end.


(** *** The peak-picking loop as a transition on the scan position *)

(** The index examined after [i]. *)
Definition next_index (get : Z -> option Q) (sr i : Z) : Z :=
  if above_threshold (get i)
  then i + Num.Math_floor (inject_Z sr / 4)%Q + step
  else i + step.

(** [Scanned get len sr i j]: the loop started at [i] examines index [j]
    (it reaches [j] with [j < len]). *)
Inductive Scanned (get : Z -> option Q) (len sr : Z) : Z -> Z -> Prop :=
| Scanned_here : forall i, i < len -> Scanned get len sr i i
| Scanned_later : forall i j,
    i < len -> Scanned get len sr (next_index get sr i) j ->
    Scanned get len sr i j.

(** Consecutive elements of a list are related by [R]. *)
Fixpoint chain (R : Z -> Z -> Prop) (l : list Z) : Prop :=
  match l with
  | a :: (b :: _) as rest => R a b /\ chain R rest
  | _ => True
  end.

(** *** The peak criterion as the specification words it

    [Math.abs(channelData[i]) > threshold]. *)
Definition spec_above_threshold (s : option Q) : bool :=
  match s with
  | Some x => Num.gtb (Qabs x) threshold
  | None => false
  end.

(** *** The selection rule as the specification words it

    Buckets are kept in the order in which the interval sequence first
    produces them, and the first bucket with the highest count wins. *)

Definition spec_add_interval (groups : list (Z * Z)) (interval : Z)
  : list (Z * Z) :=
  let rounded := quantize interval in
  match JSObject.get groups rounded with
  | Some c => JSObject.update groups rounded (c + 1)
  | None => groups ++ [(rounded, 1)]
  end.

Definition spec_histogram (intervals : list Z) : list (Z * Z) :=
  fold_left spec_add_interval intervals [].

Definition spec_bestInterval_first_encountered (intervals : list Z) : Z :=
  snd (fold_left pick (spec_histogram intervals) (0, 0)).

(** The number of occurrences of [k] among the keys [ks]. *)
Definition occurrences (ks : list Z) (k : Z) : Z :=
  Z.of_nat (count_occ Z.eq_dec ks k).

(** The number of intervals that fall in bucket [k]. *)
Definition bucket_count (intervals : list Z) (k : Z) : Z :=
  occurrences (map quantize intervals) k.

(** What the histogram object holds after the keys [ks] have been counted:
    its property names ascend, and each key read gives its number of
    occurrences, [undefined] when there is none. *)
Definition counts (o : JSObject.t) (ks : list Z) : Prop :=
  StronglySorted Z.lt (JSObject.keys o) /\
  Forall (fun x => JSObject.is_array_index x = true) (JSObject.keys o) /\
  forall k,
    match JSObject.get o k with
    | Some c => c = occurrences ks k /\ 0 < c
    | None => occurrences ks k = 0
    end.

(** *** Test buffers *)

(** The buffer of [len] samples whose sample [i] is [f i]. *)
Definition tabulate (len : Z) (f : Z -> Q) : list Q :=
  map (fun k => f (Z.of_nat k)) (seq 0 (Z.to_nat len)).

(** A click of [width] samples of value [amp] at the start of every
    [period] samples, silence elsewhere. *)
Definition clicks (period width : Z) (amp : Q) (i : Z) : Q :=
  if i mod period <? width then amp else 0.

(** Ten seconds at 44.1 kHz with a click every half second (120 BPM):
    clicks of one sample, and clicks of eight samples. *)
Definition impulses_120bpm : ToneAudioBuffer :=
  mkBuffer (tabulate 441000 (clicks 22050 1 1)) 44100.
Definition bursts_120bpm : ToneAudioBuffer :=
  mkBuffer (tabulate 441000 (clicks 22050 8 1)) 44100.

(** 8 kHz, a click every 4100 samples (about 117 BPM), eleven clicks. *)
Definition clicks_8k : ToneAudioBuffer :=
  mkBuffer (tabulate 41001 (clicks 4100 1 1)) 8000.

(** The same with clicks that go to -0.9 instead of +1. *)
Definition negative_clicks_8k : ToneAudioBuffer :=
  mkBuffer (tabulate 41001 (clicks 4100 1 (-0.9))) 8000.

(** 8 kHz, clicks alternately 6000 and 4000 samples apart, starting with
    a gap of 6000: five intervals fall in each of the two buckets. *)
Definition alternating_8k : ToneAudioBuffer :=
  mkBuffer
    (tabulate 50001
       (fun i => if (i mod 10000 =? 0) || (i mod 10000 =? 6000)
                 then 1 else 0)%Q)
    8000.

(** Sample rate 1280, a click every 324 samples, eleven clicks. *)
Definition clicks_1280 : ToneAudioBuffer :=
  mkBuffer (tabulate 3241 (clicks 324 1 1)) 1280.

End Tempo.

(** ** Deck: transport and tempo sync *)

Module Deck.

(** The fields of a [Deck] and the state of its [Tone.Player] that the
    transport reads or writes.  [loadedEvents] logs the [detail.bpm] of the
    ['loaded'] events dispatched so far, latest first.  [player_loaded] is
    [player.loaded]: a buffer has been loaded into the player. *)
Record t : Type := mk {
  isPlaying : bool;
  bpm : Q;
  playbackRate : Q;
  isSynced : bool;
  player_started : bool;
  player_playbackRate : Q;
  loadedEvents : list Q;
  player_loaded : bool
}.

(** Field initialisers and constructor. *)
Definition init : t :=
  {| isPlaying := false; bpm := 0; playbackRate := 1; isSynced := false;
     player_started := false; player_playbackRate := 1;
     loadedEvents := []; player_loaded := false |}.

Definition setRate (rate : Q) (d : t) : t :=
  {| isPlaying := isPlaying d; bpm := bpm d;
     playbackRate := rate;
     isSynced := isSynced d; player_started := player_started d;
     player_playbackRate := rate;
     loadedEvents := loadedEvents d;
     player_loaded := player_loaded d |}.

(** [syncToMaster], reading [this.engine.masterBpm]. *)
Definition syncToMaster (masterBpm : Q) (d : t) : t :=
  if Num.gtb (bpm d) 0 && Num.gtb masterBpm 0
  then setRate (masterBpm / bpm d) d
  else d.

Definition set_isSynced (b : bool) (d : t) : t :=
  {| isPlaying := isPlaying d; bpm := bpm d;
     playbackRate := playbackRate d;
     isSynced := b; player_started := player_started d;
     player_playbackRate := player_playbackRate d;
     loadedEvents := loadedEvents d;
     player_loaded := player_loaded d |}.

Definition toggleSync (masterBpm : Q) (d : t) : t :=
  let d1 := set_isSynced (negb (isSynced d)) d in
  if isSynced d1 then syncToMaster masterBpm d1 else setRate 1 d1.

Definition set_transport (started : bool) (d : t) : t :=
  {| isPlaying := started; bpm := bpm d;
     playbackRate := playbackRate d;
     isSynced := isSynced d; player_started := started;
     player_playbackRate := player_playbackRate d;
     loadedEvents := loadedEvents d;
     player_loaded := player_loaded d |}.

(** [player.start()] throws when no buffer is loaded into the player. *)
Definition start_throws (d : t) : bool := negb (player_loaded d).

(** The player after a [start()] that has thrown: what [player.state]
    reads from then on is decided inside [Tone.js] and is taken as an
    argument; the fields of the deck are as they were. *)
Definition set_player_started (started : bool) (d : t) : t :=
  {| isPlaying := isPlaying d; bpm := bpm d;
     playbackRate := playbackRate d;
     isSynced := isSynced d; player_started := started;
     player_playbackRate := player_playbackRate d;
     loadedEvents := loadedEvents d;
     player_loaded := player_loaded d |}.

(** [playPause].  On a stopped player the rate is synced first; then
    [player.start()] either starts the player, after which [isPlaying] is
    set, or throws, and the exception leaves [playPause] before
    [this.isPlaying = true]. *)
Definition playPause (state_after_throw : bool) (masterBpm : Q) (d : t)
  : t :=
  if player_started d then set_transport false d
  else
    let d1 := if isSynced d then syncToMaster masterBpm d else d in
    if start_throws d1 then set_player_started state_after_throw d1
    else set_transport true d1.

(** [playPause] ends with an exception. *)
Definition playPause_throws (d : t) : bool :=
  negb (player_started d) && start_throws d.

(** [await this.player.load(url)] has resolved. *)
Definition set_loaded (d : t) : t :=
  {| isPlaying := isPlaying d; bpm := bpm d;
     playbackRate := playbackRate d;
     isSynced := isSynced d; player_started := player_started d;
     player_playbackRate := player_playbackRate d;
     loadedEvents := loadedEvents d;
     player_loaded := true |}.

(** [this.bpm = await this.detectBPM(...)]. *)
Definition set_bpm (b : Q) (d : t) : t :=
  {| isPlaying := isPlaying d; bpm := b;
     playbackRate := playbackRate d;
     isSynced := isSynced d; player_started := player_started d;
     player_playbackRate := player_playbackRate d;
     loadedEvents := loadedEvents d;
     player_loaded := player_loaded d |}.

(** [dispatchEvent(new CustomEvent('loaded', { detail: { bpm } }))]. *)
Definition dispatch_loaded (d : t) : t :=
  {| isPlaying := isPlaying d; bpm := bpm d;
     playbackRate := playbackRate d;
     isSynced := isSynced d; player_started := player_started d;
     player_playbackRate := player_playbackRate d;
     loadedEvents := bpm d :: loadedEvents d;
     player_loaded := player_loaded d |}.

End Deck.

(** ** AudioEngine: master tempo and the two decks *)

Module AudioEngine.

Record t : Type := mk {
  masterBpm : Q;
  deckA : Deck.t;
  deckB : Deck.t
}.

Definition init : t :=
  {| masterBpm := 120; deckA := Deck.init; deckB := Deck.init |}.

Inductive DeckId : Type := A | B.

Definition deck (id : DeckId) (e : t) : Deck.t :=
  match id with A => deckA e | B => deckB e end.

Definition set_deck (id : DeckId) (d : Deck.t) (e : t) : t :=
  match id with
  | A => {| masterBpm := masterBpm e; deckA := d; deckB := deckB e |}
  | B => {| masterBpm := masterBpm e; deckA := deckA e; deckB := d |}
  end.

Definition sync_if_synced (m : Q) (d : Deck.t) : Deck.t :=
  if Deck.isSynced d then Deck.syncToMaster m d else d.

Definition setMasterBpm (bpm : Q) (e : t) : t :=
  {| masterBpm := bpm;
     deckA := sync_if_synced bpm (deckA e);
     deckB := sync_if_synced bpm (deckB e) |}.

(** Deck methods, run on deck [id] of the engine it refers back to. *)
Definition toggleSync (id : DeckId) (e : t) : t :=
  set_deck id (Deck.toggleSync (masterBpm e) (deck id e)) e.

Definition playPause (id : DeckId) (state_after_throw : bool) (e : t) : t :=
  set_deck id
    (Deck.playPause state_after_throw (masterBpm e) (deck id e)) e.

Definition setRate (id : DeckId) (rate : Q) (e : t) : t :=
  set_deck id (Deck.setRate rate (deck id e)) e.

(** The body of [Deck.loadTrack] when [player.load] has resolved and
    [detectBPM] has returned [b]. *)
Definition loaded_with (id : DeckId) (b : Q) (e : t) : t :=
  let e1 :=
    set_deck id (Deck.set_bpm b (Deck.set_loaded (deck id e))) e in
  let e2 := if Num.eqb (masterBpm e1) 120 && Num.gtb b 0
            then setMasterBpm b e1 else e1 in
  set_deck id (Deck.dispatch_loaded (deck id e2)) e2.

(** [Deck.loadTrack] on deck [id].  [load] is the outcome of
    [player.load]: the decoded buffer, or [None] when it rejects (the
    [catch] logs and leaves everything as it was).  The result is [None]
    when [detectBPM] does not return. *)
Definition loadTrack (id : DeckId) (load : option Tempo.ToneAudioBuffer)
           (e : t) : option t :=
  match load with
  | None => Some e
  | Some buffer =>
      match Tempo.detectBPM buffer with
      | Some b => Some (loaded_with id b e)
      | None => None
      end
  end.

(** Sequences of engine operations.  [Loaded id b] is a [loadTrack] on deck
    [id] that completes with estimate [b]; [PlayPause] carries what the
    player's state reads after a [start()] that throws. *)
Inductive Op : Type :=
| SetMasterBpm (bpm : Q)
| ToggleSync (id : DeckId)
| PlayPause (id : DeckId) (state_after_throw : bool)
| SetRate (id : DeckId) (rate : Q)
| Loaded (id : DeckId) (b : Q).

Definition step (op : Op) (e : t) : t :=
  match op with
  | SetMasterBpm bpm => setMasterBpm bpm e
  | ToggleSync id => toggleSync id e
  | PlayPause id st => playPause id st e
  | SetRate id rate => setRate id rate e
  | Loaded id b => loaded_with id b e
  end.

Definition run (ops : list Op) (e : t) : t :=
  fold_left (fun e op => step op e) ops e.

(** The precondition of [setMasterBpm]: a positive tempo. *)
Definition well_called (op : Op) : Prop :=
  match op with
  | SetMasterBpm bpm => (0 < bpm)%Q
  | _ => True
  end.

End AudioEngine.

(** ** VoiceEngine: effect presets and the record/playback unit *)

Module Voice.

(** The node parameters written by [setPreset] and [resetFX]. *)
Record FX : Type := mkFX {
  pitch : Q;               (* pitchShift.pitch *)
  distortion : Q;          (* distortion.distortion *)
  bits : Q;                (* bitCrusher.bits *)
  vibratoFrequency : Q;    (* vibrato.frequency *)
  vibratoDepth : Q;        (* vibrato.depth *)
  reverbWet : Q;           (* reverb.wet *)
  reverbDecay : Q;         (* reverb.decay *)
  delayWet : Q;            (* delay.wet *)
  delayFeedback : Q;       (* delay.feedback *)
  eqHigh : Q;
  eqMid : Q;
  eqLow : Q;
  playbackRate : Q         (* player.playbackRate *)
}.

(** The neutral value of every parameter: the value [resetFX] writes, and
    for the two parameters it does not write the value the constructor
    gives them ([new Tone.Vibrato(0, 0)], [new Tone.FeedbackDelay("8n", 0)]). *)
Definition neutral : FX :=
  {| pitch := 0; distortion := 0; bits := 16;
     vibratoFrequency := 0; vibratoDepth := 0;
     reverbWet := 0.2; reverbDecay := 1.5;
     delayWet := 0; delayFeedback := 0;
     eqHigh := 0; eqMid := 0; eqLow := 0;
     playbackRate := 1 |}.

Definition resetFX (f : FX) : FX :=
  {| pitch := 0; distortion := 0; bits := 16;
     vibratoFrequency := vibratoFrequency f; vibratoDepth := 0;
     reverbWet := 0.2; reverbDecay := 1.5;
     delayWet := 0; delayFeedback := delayFeedback f;
     eqHigh := 0; eqMid := 0; eqLow := 0;
     playbackRate := 1 |}.

(** The [switch (index)] of [setPreset]. *)
Definition overlay (index : Z) (f : FX) : FX :=
  match index with
  | 0 => {| pitch := pitch f; distortion := 0.05; bits := bits f;
            vibratoFrequency := vibratoFrequency f;
            vibratoDepth := vibratoDepth f;
            reverbWet := reverbWet f; reverbDecay := reverbDecay f;
            delayWet := delayWet f; delayFeedback := delayFeedback f;
            eqHigh := 6; eqMid := eqMid f; eqLow := -5;
            playbackRate := playbackRate f |}
  | 1 => {| pitch := -12; distortion := 0.2; bits := bits f;
            vibratoFrequency := vibratoFrequency f;
            vibratoDepth := vibratoDepth f;
            reverbWet := reverbWet f; reverbDecay := reverbDecay f;
            delayWet := delayWet f; delayFeedback := delayFeedback f;
            eqHigh := eqHigh f; eqMid := eqMid f; eqLow := eqLow f;
            playbackRate := playbackRate f |}
  | 2 => {| pitch := 12; distortion := distortion f; bits := bits f;
            vibratoFrequency := vibratoFrequency f;
            vibratoDepth := vibratoDepth f;
            reverbWet := reverbWet f; reverbDecay := reverbDecay f;
            delayWet := delayWet f; delayFeedback := delayFeedback f;
            eqHigh := eqHigh f; eqMid := eqMid f; eqLow := eqLow f;
            playbackRate := 1 |}
  | 3 => {| pitch := -7; distortion := 0.8; bits := bits f;
            vibratoFrequency := vibratoFrequency f;
            vibratoDepth := vibratoDepth f;
            reverbWet := 0.5; reverbDecay := reverbDecay f;
            delayWet := delayWet f; delayFeedback := delayFeedback f;
            eqHigh := eqHigh f; eqMid := eqMid f; eqLow := eqLow f;
            playbackRate := playbackRate f |}
  | 4 => {| pitch := pitch f; distortion := distortion f; bits := 4;
            vibratoFrequency := 50;
            vibratoDepth := 0.5;
            reverbWet := reverbWet f; reverbDecay := reverbDecay f;
            delayWet := delayWet f; delayFeedback := delayFeedback f;
            eqHigh := eqHigh f; eqMid := eqMid f; eqLow := eqLow f;
            playbackRate := playbackRate f |}
  | 5 => {| pitch := 7; distortion := distortion f; bits := bits f;
            vibratoFrequency := vibratoFrequency f;
            vibratoDepth := vibratoDepth f;
            reverbWet := 0.8; reverbDecay := 6;
            delayWet := 0.5; delayFeedback := 0.6;
            eqHigh := eqHigh f; eqMid := eqMid f; eqLow := eqLow f;
            playbackRate := playbackRate f |}
  | 6 => {| pitch := pitch f; distortion := 0.4; bits := bits f;
            vibratoFrequency := vibratoFrequency f;
            vibratoDepth := vibratoDepth f;
            reverbWet := reverbWet f; reverbDecay := reverbDecay f;
            delayWet := delayWet f; delayFeedback := delayFeedback f;
            eqHigh := -20; eqMid := 10; eqLow := -20;
            playbackRate := playbackRate f |}
  | _ => f
  end.


(** The fields of a [VoiceEngine] and the state of its nodes that the
    unit reads or writes.  [notifications] counts the ['state-change']
    events dispatched so far. *)
Record t : Type := mk {
  isRecording : bool;
  isPlaying : bool;
  currentPreset : Z;
  fx : FX;
  mic_started : bool;        (* mic.state === 'started' *)
  player_loaded : bool;      (* player.loaded *)
  player_started : bool;
  player_loop : bool;
  notifications : nat
}.

Definition dispatch_state_change (s : t) : t :=
  {| isRecording := isRecording s; isPlaying := isPlaying s;
     currentPreset := currentPreset s; fx := fx s;
     mic_started := mic_started s; player_loaded := player_loaded s;
     player_started := player_started s; player_loop := player_loop s;
     notifications := S (notifications s) |}.

Definition setPreset (index : Z) (s : t) : t :=
  dispatch_state_change
    {| isRecording := isRecording s; isPlaying := isPlaying s;
       currentPreset := index;
       fx := overlay index (resetFX (fx s));
       mic_started := mic_started s; player_loaded := player_loaded s;
       player_started := player_started s; player_loop := player_loop s;
       notifications := notifications s |}.

(** The constructor: node defaults as written in the source, then
    [setPreset(0)].  [delay.wet] is not given in the source; [resetFX]
    overwrites it whatever it is. *)
Definition constructed : t :=
  setPreset 0
    {| isRecording := false; isPlaying := false; currentPreset := 0;
       fx := {| pitch := 0; distortion := 0; bits := 16;
                vibratoFrequency := 0; vibratoDepth := 0;
                reverbWet := 0.2; reverbDecay := 1.5;
                delayWet := 1; delayFeedback := 0;
                eqHigh := 0; eqMid := 0; eqLow := 0;
                playbackRate := 1 |};
       mic_started := false; player_loaded := false;
       player_started := false; player_loop := true;
       notifications := O |}.

Definition set_mic_started (b : bool) (s : t) : t :=
  {| isRecording := isRecording s; isPlaying := isPlaying s;
     currentPreset := currentPreset s; fx := fx s;
     mic_started := b; player_loaded := player_loaded s;
     player_started := player_started s; player_loop := player_loop s;
     notifications := notifications s |}.

Definition set_isRecording (b : bool) (s : t) : t :=
  {| isRecording := b; isPlaying := isPlaying s;
     currentPreset := currentPreset s; fx := fx s;
     mic_started := mic_started s; player_loaded := player_loaded s;
     player_started := player_started s; player_loop := player_loop s;
     notifications := notifications s |}.

Definition set_player_loaded (b : bool) (s : t) : t :=
  {| isRecording := isRecording s; isPlaying := isPlaying s;
     currentPreset := currentPreset s; fx := fx s;
     mic_started := mic_started s; player_loaded := b;
     player_started := player_started s; player_loop := player_loop s;
     notifications := notifications s |}.

Definition set_playing (b : bool) (s : t) : t :=
  {| isRecording := isRecording s; isPlaying := b;
     currentPreset := currentPreset s; fx := fx s;
     mic_started := mic_started s; player_loaded := player_loaded s;
     player_started := b; player_loop := player_loop s;
     notifications := notifications s |}.

(** [startMic]; [open_ok] tells whether [mic.open()] resolves. *)
Definition startMic (open_ok : bool) (s : t) : t :=
  if mic_started s then s
  else if open_ok then set_mic_started true s else s.

(** [startRecording] from the completion of [await this.startMic()] to
    its end; the method writes nothing before that completion.  The calls
    that may run while the await is pending are modelled in
    [VoiceAsync]. *)
Definition startRecording (open_ok : bool) (s : t) : t :=
  let s1 := startMic open_ok s in
  if mic_started s1
  then dispatch_state_change (set_isRecording true s1)
  else s1.

(** What the awaited calls of [stopRecording] do: [recorder.stop()]
    rejects, or resolves with a blob of some size, in which case
    [player.load] resolves or rejects. *)
Inductive StopOutcome : Type :=
| StopRejected
| Blob (size : Z) (load_ok : bool).

(** [stopRecording] run with no other call in between; its awaited steps
    are taken one by one in [VoiceAsync]. *)
Definition stopRecording (out : StopOutcome) (s : t) : t :=
  if negb (isRecording s) then s
  else
    match out with
    | StopRejected => dispatch_state_change (set_isRecording false s)
    | Blob size load_ok =>
        let s1 := set_isRecording false s in
        let s2 := if (size >? 0) && load_ok
                  then set_player_loaded true s1 else s1 in
        dispatch_state_change s2
    end.

Definition play (s : t) : t :=
  if player_loaded s
  then dispatch_state_change (set_playing true s)
  else s.

Definition stop (s : t) : t :=
  dispatch_state_change (set_playing false s).

(** [loadFile]; [load_ok] tells whether [player.load] resolves. *)
Definition loadFile (load_ok : bool) (s : t) : t :=
  if load_ok then dispatch_state_change (set_player_loaded true s) else s.

(** Sequences of operations, each run to its end before the next. *)
Inductive Op : Type :=
| StartRecording (open_ok : bool)
| StopRecording (out : StopOutcome)
| Play
| Stop
| LoadFile (load_ok : bool).

Definition step (op : Op) (s : t) : t :=
  match op with
  | StartRecording open_ok => startRecording open_ok s
  | StopRecording out => stopRecording out s
  | Play => play s
  | Stop => stop s
  | LoadFile load_ok => loadFile load_ok s
  end.

Definition run (ops : list Op) (s : t) : t :=
  fold_left (fun s op => step op s) ops s.

(** The modes of the specification, read off the two flags. *)
Definition Recording (s : t) : Prop := isRecording s = true.
Definition Playing (s : t) : Prop := isPlaying s = true.
Definition Idle (s : t) : Prop :=
  isRecording s = false /\ isPlaying s = false.
Definition exclusive (s : t) : Prop := ~ (Recording s /\ Playing s).


(** The tunable parameters by name. *)
Inductive Param : Type :=
| Pitch | Distortion | Bits | VibratoFrequency | VibratoDepth
| ReverbWet | ReverbDecay | DelayWet | DelayFeedback
| EqHigh | EqMid | EqLow | PlaybackRate.

Definition value (p : Param) (f : FX) : Q :=
  match p with
  | Pitch => pitch f
  | Distortion => distortion f
  | Bits => bits f
  | VibratoFrequency => vibratoFrequency f
  | VibratoDepth => vibratoDepth f
  | ReverbWet => reverbWet f
  | ReverbDecay => reverbDecay f
  | DelayWet => delayWet f
  | DelayFeedback => delayFeedback f
  | EqHigh => eqHigh f
  | EqMid => eqMid f
  | EqLow => eqLow f
  | PlaybackRate => playbackRate f
  end.

(** The parameters each [case] of [setPreset] assigns. *)
Definition named (index : Z) : list Param :=
  match index with
  | 0 => [EqHigh; EqLow; Distortion]
  | 1 => [Pitch; Distortion]
  | 2 => [Pitch; PlaybackRate]
  | 3 => [Pitch; Distortion; ReverbWet]
  | 4 => [Bits; VibratoFrequency; VibratoDepth]
  | 5 => [Pitch; ReverbDecay; ReverbWet; DelayWet; DelayFeedback]
  | 6 => [EqHigh; EqLow; EqMid; Distortion]
  | _ => []
  end.

End Voice.

(** ** VoiceEngine: calls and the completion of their awaited steps

    [startRecording], [stopRecording] and [loadFile] are [async]: a call
    returns at its first [await] and the rest runs when the awaited step
    completes, after whatever calls were made in the meantime.  [play] and
    [stop] are synchronous.  The awaits inside [startMic] write no field of
    the unit and are taken together with the await of [startRecording]. *)

Module VoiceAsync.

(** An awaited step that has not completed yet. *)
Inductive Task : Type :=
| AwaitMic              (* startRecording: await this.startMic() *)
| AwaitRecorderStop     (* stopRecording: await this.recorder.stop() *)
| AwaitRecordingLoad    (* stopRecording: await this.player.load(url) *)
| AwaitFileLoad.        (* loadFile: await this.player.load(url) *)

(** The unit and the awaited steps in flight, oldest first. *)
Record t : Type := mk {
  unit : Voice.t;
  pending : list Task
}.

Definition idle (s : Voice.t) : t := {| unit := s; pending := [] |}.

Inductive Call : Type :=
| StartRecording
| StopRecording
| Play
| Stop
| LoadFile.

(** A call, up to its first [await]. *)
Definition invoke (c : Call) (a : t) : t :=
  match c with
  | StartRecording =>
      {| unit := unit a; pending := pending a ++ [AwaitMic] |}
  | StopRecording =>
      if negb (Voice.isRecording (unit a)) then a
      else {| unit := unit a; pending := pending a ++ [AwaitRecorderStop] |}
  | Play => {| unit := Voice.play (unit a); pending := pending a |}
  | Stop => {| unit := Voice.stop (unit a); pending := pending a |}
  | LoadFile =>
      {| unit := unit a; pending := pending a ++ [AwaitFileLoad] |}
  end.

(** What an awaited step answers: it resolves or rejects, and for
    [recorder.stop()] the size of the blob. *)
Record Answer : Type := mkAnswer {
  resolved : bool;
  size : Z
}.

(** The rest of a method from the completion of its awaited step, on the
    state in which that step has been taken off the list. *)
Definition complete (task : Task) (ans : Answer) (a : t) : t :=
  match task with
  | AwaitMic =>
      {| unit := Voice.startRecording (resolved ans) (unit a);
         pending := pending a |}
  | AwaitRecorderStop =>
      let s1 := Voice.set_isRecording false (unit a) in
      if resolved ans && (size ans >? 0)
      then {| unit := s1; pending := pending a ++ [AwaitRecordingLoad] |}
      else {| unit := Voice.dispatch_state_change s1;
              pending := pending a |}
  | AwaitRecordingLoad =>
      let s1 := if resolved ans
                then Voice.set_player_loaded true (unit a) else unit a in
      {| unit := Voice.dispatch_state_change s1; pending := pending a |}
  | AwaitFileLoad =>
      {| unit := Voice.loadFile (resolved ans) (unit a);
         pending := pending a |}
  end.

Fixpoint remove_nth (n : nat) (l : list Task) : list Task :=
  match n, l with
  | _, [] => []
  | O, _ :: l' => l'
  | S n', x :: l' => x :: remove_nth n' l'
  end.

(** The awaited step number [n] completes; nothing happens when there is
    no such step. *)
Definition resume (n : nat) (ans : Answer) (a : t) : t :=
  match nth_error (pending a) n with
  | Some task =>
      complete task ans
        {| unit := unit a; pending := remove_nth n (pending a) |}
  | None => a
  end.

Inductive Event : Type :=
| Invoke (c : Call)
| Resume (n : nat) (ans : Answer).

Definition step (e : Event) (a : t) : t :=
  match e with
  | Invoke c => invoke c a
  | Resume n ans => resume n ans a
  end.

Definition run (events : list Event) (a : t) : t :=
  fold_left (fun a e => step e a) events a.

(** The states passed through, the starting one first. *)
Fixpoint trace (events : list Event) (a : t) : list t :=
  match events with
  | [] => [a]
  | e :: rest => a :: trace rest (step e a)
  end.

(** Consecutive states of a trace are related by [R]. *)
Fixpoint adjacent (R : t -> t -> Prop) (l : list t) : Prop :=
  match l with
  | a :: (b :: _) as rest => R a b /\ adjacent R rest
  | _ => True
  end.

(** A caller that does not call [play] while recording or while a
    [startRecording] is pending, nor [startRecording] while playing.  The
    completions are not the caller's to choose. *)
Definition allowed (e : Event) (a : t) : Prop :=
  match e with
  | Invoke Play =>
      Voice.isRecording (unit a) = false /\ ~ In AwaitMic (pending a)
  | Invoke StartRecording => Voice.isPlaying (unit a) = false
  | _ => True
  end.

Fixpoint disciplined (events : list Event) (a : t) : Prop :=
  match events with
  | [] => True
  | e :: rest => allowed e a /\ disciplined rest (step e a)
  end.

(** No [startRecording] is pending on a unit that is playing. *)
Definition settled (a : t) : Prop :=
  In AwaitMic (pending a) -> Voice.isPlaying (unit a) = false.

End VoiceAsync.

(** ** Further controls of the engine and the user interface *)

From Stdlib Require Import Qminmax.

Module DeckControls.

(** [Deck.setFilter]: the frequency handed to [filter.frequency.rampTo],
    [Math.max(100, Math.min(20000, freq))]. *)
Definition setFilter (freq : Q) : Q := Qmax 100 (Qmin 20000 freq).

(** What [meter.getValue()] returns: one level per channel, a level in
    decibels, or minus infinity (silence). *)
Inductive MeterValue : Type :=
| Channels (values : list Q)
| Level (db : Q)
| MinusInfinity.

(** [Deck.getLevel]; [Math.max(0, (-Infinity + 60) / 60)] is 0. *)
Definition getLevel (val : MeterValue) : Q :=
  match val with
  | Channels _ => 0
  | Level db => Qmax 0 ((db + 60) / 60)
  | MinusInfinity => 0
  end.

(** The precondition of [setRate] and [setMasterBpm]: positive numbers. *)
Definition positive_arguments (op : AudioEngine.Op) : Prop :=
  match op with
  | AudioEngine.SetMasterBpm bpm => (0 < bpm)%Q
  | AudioEngine.SetRate _ rate => (0 < rate)%Q
  | _ => True
  end.

(** A deck whose rate is positive and is the rate of its player. *)
Definition sound (d : Deck.t) : Prop :=
  (0 < Deck.playbackRate d)%Q /\
  Deck.player_playbackRate d = Deck.playbackRate d.

End DeckControls.

Module VoiceControls.

(** [VoiceEngine.setPlaybackRate]. *)
Definition setPlaybackRate (rate : Q) (s : Voice.t) : Voice.t :=
  let f := Voice.fx s in
  {| Voice.isRecording := Voice.isRecording s;
     Voice.isPlaying := Voice.isPlaying s;
     Voice.currentPreset := Voice.currentPreset s;
     Voice.fx :=
       {| Voice.pitch := Voice.pitch f;
          Voice.distortion := Voice.distortion f;
          Voice.bits := Voice.bits f;
          Voice.vibratoFrequency := Voice.vibratoFrequency f;
          Voice.vibratoDepth := Voice.vibratoDepth f;
          Voice.reverbWet := Voice.reverbWet f;
          Voice.reverbDecay := Voice.reverbDecay f;
          Voice.delayWet := Voice.delayWet f;
          Voice.delayFeedback := Voice.delayFeedback f;
          Voice.eqHigh := Voice.eqHigh f;
          Voice.eqMid := Voice.eqMid f;
          Voice.eqLow := Voice.eqLow f;
          Voice.playbackRate := rate |};
     Voice.mic_started := Voice.mic_started s;
     Voice.player_loaded := Voice.player_loaded s;
     Voice.player_started := Voice.player_started s;
     Voice.player_loop := Voice.player_loop s;
     Voice.notifications := Voice.notifications s |}.

(** [VoiceEngine.toggleLoop]. *)
Definition toggleLoop (loop : bool) (s : Voice.t) : Voice.t :=
  {| Voice.isRecording := Voice.isRecording s;
     Voice.isPlaying := Voice.isPlaying s;
     Voice.currentPreset := Voice.currentPreset s;
     Voice.fx := Voice.fx s;
     Voice.mic_started := Voice.mic_started s;
     Voice.player_loaded := Voice.player_loaded s;
     Voice.player_started := Voice.player_started s;
     Voice.player_loop := loop;
     Voice.notifications := Voice.notifications s |}.

(** Every operation of the voice engine. *)
Inductive Op : Type :=
| Unit (op : Voice.Op)
| SetPreset (index : Z)
| SetPlaybackRate (rate : Q)
| ToggleLoop (loop : bool).

Definition step (op : Op) (s : Voice.t) : Voice.t :=
  match op with
  | Unit op => Voice.step op s
  | SetPreset index => Voice.setPreset index s
  | SetPlaybackRate rate => setPlaybackRate rate s
  | ToggleLoop loop => toggleLoop loop s
  end.

Definition run (ops : list Op) (s : Voice.t) : Voice.t :=
  fold_left (fun s op => step op s) ops s.

End VoiceControls.

(** ** VoiceDashboard: the component that shows the voice engine *)

Module VoiceDashboard.

(** The component's copies of the engine's flags, and the engine. *)
Record t : Type := mk {
  isRecording : bool;
  isPlaying : bool;
  isLooping : bool;
  currentPreset : Z;
  engine : Voice.t
}.

(** [connectedCallback] on a given engine. *)
Definition connected (e : Voice.t) : t :=
  {| isRecording := false; isPlaying := false; isLooping := true;
     currentPreset := Voice.currentPreset e; engine := e |}.

(** [syncState], the listener of ['state-change']. *)
Definition syncState (d : t) : t :=
  {| isRecording := Voice.isRecording (engine d);
     isPlaying := Voice.isPlaying (engine d);
     isLooping := isLooping d;
     currentPreset := Voice.currentPreset (engine d);
     engine := engine d |}.

(** An engine operation run from the component: the engine dispatches
    ['state-change'] as the last step of an operation, if at all, and the
    listener then runs [syncState]. *)
Definition with_engine (f : Voice.t -> Voice.t) (d : t) : t :=
  let e' := f (engine d) in
  let d' := {| isRecording := isRecording d; isPlaying := isPlaying d;
               isLooping := isLooping d; currentPreset := currentPreset d;
               engine := e' |} in
  if Nat.eqb (Voice.notifications e') (Voice.notifications (engine d))
  then d' else syncState d'.

(** [toggleRec]; the outcomes of the awaited calls are arguments. *)
Definition toggleRec (open_ok : bool) (out : Voice.StopOutcome) (d : t) : t :=
  if isRecording d
  then with_engine (Voice.stopRecording out) d
  else with_engine (Voice.startRecording open_ok) d.

Definition togglePlay (d : t) : t :=
  if isPlaying d then with_engine Voice.stop d
  else with_engine Voice.play d.

(** The STOP button. *)
Definition stopButton (d : t) : t := with_engine Voice.stop d.

Definition setPreset (idx : Z) (d : t) : t :=
  with_engine (Voice.setPreset idx) d.

Definition toggleLoop (d : t) : t :=
  let l := negb (isLooping d) in
  let d' := {| isRecording := isRecording d; isPlaying := isPlaying d;
               isLooping := l; currentPreset := currentPreset d;
               engine := engine d |} in
  with_engine (VoiceControls.toggleLoop l) d'.

(** [handleFileLoad] once a file has been chosen. *)
Definition handleFileLoad (load_ok : bool) (d : t) : t :=
  with_engine (Voice.loadFile load_ok) d.

Inductive Action : Type :=
| ToggleRec (open_ok : bool) (out : Voice.StopOutcome)
| TogglePlay
| StopButton
| SetPreset (idx : Z)
| ToggleLoop
| HandleFileLoad (load_ok : bool).

Definition act (a : Action) (d : t) : t :=
  match a with
  | ToggleRec open_ok out => toggleRec open_ok out d
  | TogglePlay => togglePlay d
  | StopButton => stopButton d
  | SetPreset idx => setPreset idx d
  | ToggleLoop => toggleLoop d
  | HandleFileLoad load_ok => handleFileLoad load_ok d
  end.

Definition run (actions : list Action) (d : t) : t :=
  fold_left (fun d a => act a d) actions d.

(** The component shows what the engine holds. *)
Definition in_step (d : t) : Prop :=
  isRecording d = Voice.isRecording (engine d) /\
  isPlaying d = Voice.isPlaying (engine d) /\
  currentPreset d = Voice.currentPreset (engine d) /\
  isLooping d = Voice.player_loop (engine d).

End VoiceDashboard.

(** ** MixerKnob *)

Module MixerKnob.

Record t : Type := mk {
  value : Q;
  min : Q;
  max : Q;
  dragStartY : Q;
  dragStartValue : Q
}.

Definition handlePointerDown (clientY : Q) (k : t) : t :=
  {| value := value k; min := min k; max := max k;
     dragStartY := clientY; dragStartValue := value k |}.

(** [handlePointerMove]: the knob afterwards and the [detail] of the
    ['input'] event, if one is dispatched. *)
Definition handlePointerMove (clientY : Q) (k : t) : t * option Q :=
  let deltaY := (dragStartY k - clientY)%Q in
  let range := (max k - min k)%Q in
  let deltaVal := ((deltaY / 120) * range)%Q in
  let newVal :=
    Qmax (min k) (Qmin (max k) (dragStartValue k + deltaVal)%Q) in
  if negb (Num.eqb newVal (value k))
  then ({| value := newVal; min := min k; max := max k;
           dragStartY := dragStartY k;
           dragStartValue := dragStartValue k |}, Some newVal)
  else (k, None).

End MixerKnob.

(** ** PromptDjMidi: the mixer strip *)

Module PromptDjMidi.

(** [masterOutput.volume]: minus infinity, or [20 * Math.log10(val)] kept
    as the [val] it is computed from. *)
Inductive Volume : Type :=
| Muted
| GainOf (val : Q).

(** The mixer states of the component, the engine, and the targets last
    written to [crossfader.fade] and [masterOutput.volume]. *)
Record t : Type := mk {
  xFaderValue : Q;
  masterBpm : Q;
  masterVol : Q;
  audioEngine : AudioEngine.t;
  crossfader_fade : Q;
  masterOutput_volume : option Volume
}.

(** The constructor: a new engine, whose crossfader starts at 0.5. *)
Definition init : t :=
  {| xFaderValue := 0.5; masterBpm := AudioEngine.masterBpm AudioEngine.init;
     masterVol := 0.8; audioEngine := AudioEngine.init;
     crossfader_fade := 0.5; masterOutput_volume := None |}.

(** [handleXFader], with [AudioEngine.setCrossfader]. *)
Definition handleXFader (val : Q) (p : t) : t :=
  {| xFaderValue := val; masterBpm := masterBpm p; masterVol := masterVol p;
     audioEngine := audioEngine p;
     crossfader_fade := val;
     masterOutput_volume := masterOutput_volume p |}.

(** [handleMasterVol], with [AudioEngine.setMasterVolume]. *)
Definition handleMasterVol (val : Q) (p : t) : t :=
  {| xFaderValue := xFaderValue p; masterBpm := masterBpm p; masterVol := val;
     audioEngine := audioEngine p;
     crossfader_fade := crossfader_fade p;
     masterOutput_volume :=
       Some (if Num.eqb val 0 then Muted else GainOf val) |}.

(** [handleMidiCC] on a control change [(cc, value)]. *)
Definition handleMidiCC (cc value : Z) (p : t) : t :=
  let normalized := (inject_Z value / 127)%Q in
  if cc =? 10 then handleXFader normalized p
  else if cc =? 7 then handleMasterVol normalized p
  else p.

(** [handleMasterBpm] on the [detail] of the BPM knob's event. *)
Definition handleMasterBpm (detail : Q) (p : t) : t :=
  let rounded := inject_Z (Num.Math_round detail) in
  {| xFaderValue := xFaderValue p; masterBpm := rounded;
     masterVol := masterVol p;
     audioEngine := AudioEngine.setMasterBpm rounded (audioEngine p);
     crossfader_fade := crossfader_fade p;
     masterOutput_volume := masterOutput_volume p |}.

(** The BPM knob as [render] creates it: [min="60" max="180"]. *)
Definition bpmKnob (p : t) : MixerKnob.t :=
  {| MixerKnob.value := masterBpm p; MixerKnob.min := 60;
     MixerKnob.max := 180; MixerKnob.dragStartY := 0;
     MixerKnob.dragStartValue := 0 |}.

(** A pointer press at [y0] and a move to [y1] on the BPM knob; an
    ['input'] event, if any, goes to [handleMasterBpm]. *)
Definition dragBpmKnob (y0 y1 : Q) (p : t) : t :=
  let k := MixerKnob.handlePointerDown y0 (bpmKnob p) in
  match snd (MixerKnob.handlePointerMove y1 k) with
  | Some detail => handleMasterBpm detail p
  | None => p
  end.

End PromptDjMidi.

(** ** DjDeck: the component that drives one deck *)

Module DjDeck.

(** The component's states, the deck it drives and the engine. *)
Record t : Type := mk {
  id : AudioEngine.DeckId;
  isPlaying : bool;
  isSynced : bool;
  bpm : Q;
  rate : Q;
  engine : AudioEngine.t
}.

Definition deck (c : t) : Deck.t := AudioEngine.deck (id c) (engine c).

(** [togglePlay]: when [deck.playPause()] throws, the assignment to
    [this.isPlaying] is not reached. *)
Definition togglePlay (state_after_throw : bool) (c : t) : t :=
  let e' := AudioEngine.playPause (id c) state_after_throw (engine c) in
  {| id := id c;
     isPlaying :=
       if Deck.playPause_throws (AudioEngine.deck (id c) (engine c))
       then isPlaying c
       else Deck.isPlaying (AudioEngine.deck (id c) e');
     isSynced := isSynced c; bpm := bpm c; rate := rate c;
     engine := e' |}.

Definition toggleSync (c : t) : t :=
  let e' := AudioEngine.toggleSync (id c) (engine c) in
  let d' := AudioEngine.deck (id c) e' in
  {| id := id c; isPlaying := isPlaying c;
     isSynced := Deck.isSynced d';
     bpm := bpm c;
     rate := if Deck.isSynced d' then Deck.playbackRate d' else rate c;
     engine := e' |}.

(** [handleRate] on the [detail] of the RATE knob's event. *)
Definition handleRate (detail : Q) (c : t) : t :=
  let c1 := if isSynced c then toggleSync c else c in
  {| id := id c1; isPlaying := isPlaying c1; isSynced := isSynced c1;
     bpm := bpm c1; rate := detail;
     engine := AudioEngine.setRate (id c1) detail (engine c1) |}.

(** [handleEQ]: the decibels handed to [deck.setEQ]. *)
Definition handleEQ (val : Q) : Q := (val - 0.5) * 40.

(** The master tempo changes while the component is shown. *)
Definition masterTempoChanged (b : Q) (c : t) : t :=
  {| id := id c; isPlaying := isPlaying c; isSynced := isSynced c;
     bpm := bpm c; rate := rate c;
     engine := AudioEngine.setMasterBpm b (engine c) |}.

End DjDeck.

(** * Properties *)

(** ** Comparisons on numbers *)

Lemma gtb_true_iff (x y : Q) : Num.gtb x y = true <-> (y < x)%Q.
Proof.
  unfold Num.gtb. rewrite negb_true_iff, <- not_true_iff_false, Qle_bool_iff.
  split; [apply Qnot_le_lt | apply Qlt_not_le].
Qed.

Lemma gtb_false_iff (x y : Q) : Num.gtb x y = false <-> (x <= y)%Q.
Proof.
  unfold Num.gtb. rewrite negb_false_iff. apply Qle_bool_iff.
Qed.

Lemma ltb_true_iff (x y : Q) : Num.ltb x y = true <-> (x < y)%Q.
Proof. unfold Num.ltb. apply (gtb_true_iff y x). Qed.

Lemma eqb_true_iff (x y : Q) : Num.eqb x y = true <-> (x == y)%Q.
Proof. apply Qeq_bool_iff. Qed.

Lemma eqb_false_iff (x y : Q) : Num.eqb x y = false <-> ~ (x == y)%Q.
Proof.
  unfold Num.eqb. rewrite <- not_true_iff_false, Qeq_bool_iff. tauto.
Qed.

(** ** Tempo sync *)

Section Sync.

Import AudioEngine.

Lemma syncToMaster_rate (m : Q) (d : Deck.t) :
  (0 < Deck.bpm d)%Q -> (0 < m)%Q ->
  Deck.syncToMaster m d = Deck.setRate (m / Deck.bpm d) d.
Proof.
  intros Hb Hm. unfold Deck.syncToMaster.
  apply gtb_true_iff in Hb. apply gtb_true_iff in Hm.
  now rewrite Hb, Hm.
Qed.

(** [syncToMaster] touches neither the flag nor the detected tempo. *)
Lemma syncToMaster_fields (m : Q) (d : Deck.t) :
  Deck.isSynced (Deck.syncToMaster m d) = Deck.isSynced d /\
  Deck.bpm (Deck.syncToMaster m d) = Deck.bpm d.
Proof.
  unfold Deck.syncToMaster.
  destruct (Num.gtb (Deck.bpm d) 0 && Num.gtb m 0); split; reflexivity.
Qed.

Lemma deck_set_deck_same (id : DeckId) (d : Deck.t) (e : t) :
  deck id (set_deck id d e) = d.
Proof. destruct id; reflexivity. Qed.

Lemma masterBpm_set_deck (id : DeckId) (d : Deck.t) (e : t) :
  masterBpm (set_deck id d e) = masterBpm e.
Proof. destruct id; reflexivity. Qed.

Lemma deck_setMasterBpm (id : DeckId) (b : Q) (e : t) :
  deck id (setMasterBpm b e) = sync_if_synced b (deck id e).
Proof. destruct id; reflexivity. Qed.

(** The master tempo stays positive under the operations of the engine,
    as long as [setMasterBpm] is called with a positive tempo. *)
Lemma loaded_with_master_positive (id : DeckId) (b : Q) (e : t) :
  (0 < masterBpm e)%Q -> (0 < masterBpm (loaded_with id b e))%Q.
Proof.
  intros Hm. unfold loaded_with.
  rewrite !masterBpm_set_deck.
  destruct (Num.eqb (masterBpm e) 120 && Num.gtb b 0) eqn:E.
  - apply andb_true_iff in E. destruct E as [_ E].
    apply gtb_true_iff in E. exact E.
  - rewrite masterBpm_set_deck. exact Hm.
Qed.

Lemma step_master_positive (op : Op) (e : t) :
  well_called op -> (0 < masterBpm e)%Q -> (0 < masterBpm (step op e))%Q.
Proof.
  destruct op as [b | id | id st | id r | id b]; simpl; intros Hw Hm.
  - exact Hw.
  - unfold toggleSync. now rewrite masterBpm_set_deck.
  - unfold playPause. now rewrite masterBpm_set_deck.
  - unfold setRate. now rewrite masterBpm_set_deck.
  - now apply loaded_with_master_positive.
Qed.

(** In every state reached from the initial engine by well-called
    operations the master tempo is positive. *)
Lemma run_master_positive (ops : list Op) :
  Forall well_called ops ->
  forall e, (0 < masterBpm e)%Q -> (0 < masterBpm (run ops e))%Q.
Proof.
  unfold run. induction ops as [| op ops IH]; intros Hall e Hm; simpl.
  - exact Hm.
  - inversion Hall; subst. apply IH; [assumption|].
    now apply step_master_positive.
Qed.

End Sync.

(** C1. After [setMasterBpm b] with [b > 0], every deck that is synced and
    has a known tempo ([bpm > 0]) plays at rate [masterBpm / bpm], whatever
    its rate was before: the broadcast re-establishes the equality.  The
    same holds for the deck on which [toggleSync] has just turned sync on,
    the master tempo being positive, as it is in every state reached from
    the initial engine when [setMasterBpm] is only called with positive
    tempos. *)
Theorem synced_rate_is_master_over_bpm :
  (forall (b : Q) (e : AudioEngine.t) (id : AudioEngine.DeckId),
      (0 < b)%Q ->
      let e' := AudioEngine.setMasterBpm b e in
      let d' := AudioEngine.deck id e' in
      Deck.isSynced d' = true -> (0 < Deck.bpm d')%Q ->
      AudioEngine.masterBpm e' = b /\
      Deck.playbackRate d' = (AudioEngine.masterBpm e' / Deck.bpm d')%Q)
  /\
  (forall (e : AudioEngine.t) (id : AudioEngine.DeckId),
      (0 < AudioEngine.masterBpm e)%Q ->
      Deck.isSynced (AudioEngine.deck id e) = false ->
      let e' := AudioEngine.toggleSync id e in
      let d' := AudioEngine.deck id e' in
      (0 < Deck.bpm d')%Q ->
      Deck.isSynced d' = true /\
      Deck.playbackRate d' = (AudioEngine.masterBpm e' / Deck.bpm d')%Q)
  /\
  (forall ops : list AudioEngine.Op,
      Forall AudioEngine.well_called ops ->
      (0 < AudioEngine.masterBpm (AudioEngine.run ops AudioEngine.init))%Q).
Proof.
  split; [| split].
  - intros b e id Hb e' d' Hs Hbpm. subst e' d'.
    rewrite deck_setMasterBpm in *.
    split; [reflexivity|].
    unfold AudioEngine.sync_if_synced in *.
    destruct (Deck.isSynced (AudioEngine.deck id e)) eqn:Es.
    + destruct (syncToMaster_fields b (AudioEngine.deck id e)) as [_ Hf].
      rewrite Hf in Hbpm |- *.
      rewrite syncToMaster_rate by assumption. reflexivity.
    + congruence.
  - intros e id Hm Hoff e' d' Hbpm. subst e' d'.
    unfold AudioEngine.toggleSync in *.
    rewrite deck_set_deck_same in *. rewrite masterBpm_set_deck.
    unfold Deck.toggleSync in *. rewrite Hoff in *. simpl in *.
    destruct (syncToMaster_fields (AudioEngine.masterBpm e)
                (Deck.set_isSynced true (AudioEngine.deck id e))) as [Hs Hf].
    rewrite Hf in Hbpm |- *. rewrite Hs. split; [reflexivity|].
    rewrite syncToMaster_rate by assumption. reflexivity.
  - intros ops Hall. apply run_master_positive; [exact Hall | reflexivity].
Qed.

(** A deck that is synced at 100 BPM and has been detuned by hand is brought
    to 128/100 by [setMasterBpm 128]; a deck at 100 BPM gets the rate
    120/100 when sync is switched on under the default master tempo. *)
Lemma synced_rate_is_master_over_bpm_witness :
  let detuned :=
    Deck.setRate 3 (Deck.set_isSynced true (Deck.set_bpm 100 Deck.init)) in
  let e1 := AudioEngine.set_deck AudioEngine.A detuned AudioEngine.init in
  let e2 := AudioEngine.set_deck AudioEngine.B
              (Deck.set_bpm 100 Deck.init) AudioEngine.init in
  Deck.playbackRate
    (AudioEngine.deck AudioEngine.A (AudioEngine.setMasterBpm 128 e1))
  = (128 / 100)%Q
  /\
  Deck.playbackRate
    (AudioEngine.deck AudioEngine.B (AudioEngine.toggleSync AudioEngine.B e2))
  = (120 / 100)%Q.
Proof.
  intros detuned e1 e2. split.
  - apply (proj1 synced_rate_is_master_over_bpm 128%Q e1 AudioEngine.A);
      reflexivity.
  - apply (proj1 (proj2 synced_rate_is_master_over_bpm) e2 AudioEngine.B);
      reflexivity.
Defined.

(** ** Adoption of the master tempo on load *)

Section Adoption.

Import AudioEngine.

Lemma loaded_with_adopts (id : DeckId) (b : Q) (e : t) :
  (masterBpm e == 120)%Q -> (0 < b)%Q ->
  masterBpm (loaded_with id b e) = b.
Proof.
  intros Hm Hb. unfold loaded_with.
  rewrite !masterBpm_set_deck.
  apply eqb_true_iff in Hm. apply gtb_true_iff in Hb.
  rewrite Hm, Hb. reflexivity.
Qed.

Lemma loaded_with_keeps (id : DeckId) (b : Q) (e : t) :
  ~ (masterBpm e == 120)%Q \/ ~ (0 < b)%Q ->
  masterBpm (loaded_with id b e) = masterBpm e.
Proof.
  intros H. unfold loaded_with.
  rewrite !masterBpm_set_deck.
  replace (Num.eqb (masterBpm e) 120 && Num.gtb b 0) with false.
  - now rewrite masterBpm_set_deck.
  - symmetry. apply andb_false_iff. destruct H as [H | H].
    + left. now apply eqb_false_iff.
    + right. apply not_true_iff_false. now rewrite gtb_true_iff.
Qed.

Lemma loaded_with_bpm (id : DeckId) (b : Q) (e : t) :
  Deck.bpm (deck id (loaded_with id b e)) = b.
Proof.
  unfold loaded_with. rewrite deck_set_deck_same. simpl.
  destruct (Num.eqb _ 120 && Num.gtb b 0).
  - rewrite deck_setMasterBpm, deck_set_deck_same.
    unfold sync_if_synced.
    destruct (Deck.isSynced _);
      [rewrite (proj2 (syncToMaster_fields _ _)) | ]; reflexivity.
  - now rewrite deck_set_deck_same.
Qed.

End Adoption.

(** C10. When [loadTrack] completes with estimate [b]: if the master tempo
    is at its default 120 and [b > 0], the master tempo becomes [b]; if the
    master tempo is not 120, or [b] is not positive (an estimate of 0), the
    master tempo is unchanged.  Once a tempo other than 120 has been
    adopted, a further load, whatever it estimates, leaves the master tempo
    alone. *)
Theorem loadTrack_adopts_master_tempo :
  forall (id : AudioEngine.DeckId) (buffer : Tempo.ToneAudioBuffer)
         (b : Q) (e : AudioEngine.t),
    Tempo.detectBPM buffer = Some b ->
    exists e',
      AudioEngine.loadTrack id (Some buffer) e = Some e' /\
      Deck.bpm (AudioEngine.deck id e') = b /\
      ((AudioEngine.masterBpm e == 120)%Q -> (0 < b)%Q ->
       AudioEngine.masterBpm e' = b) /\
      (~ (AudioEngine.masterBpm e == 120)%Q \/ ~ (0 < b)%Q ->
       AudioEngine.masterBpm e' = AudioEngine.masterBpm e) /\
      ((AudioEngine.masterBpm e == 120)%Q -> (0 < b)%Q -> ~ (b == 120)%Q ->
       forall (id2 : AudioEngine.DeckId) (buffer2 : Tempo.ToneAudioBuffer)
              (b2 : Q),
         Tempo.detectBPM buffer2 = Some b2 ->
         exists e'',
           AudioEngine.loadTrack id2 (Some buffer2) e' = Some e'' /\
           AudioEngine.masterBpm e'' = b).
Proof.
  intros id buffer b e Hd.
  exists (AudioEngine.loaded_with id b e).
  unfold AudioEngine.loadTrack. rewrite Hd.
  split; [reflexivity|].
  split; [apply loaded_with_bpm|].
  split; [apply loaded_with_adopts|].
  split; [apply loaded_with_keeps|].
  intros Hm Hb Hn id2 buffer2 b2 Hd2.
  exists (AudioEngine.loaded_with id2 b2 (AudioEngine.loaded_with id b e)).
  rewrite Hd2. split; [reflexivity|].
  rewrite loaded_with_keeps; [now apply loaded_with_adopts|].
  left. now rewrite loaded_with_adopts.
Qed.

(** ** The voice unit *)

(** C8 (as the code has it).  Two operations are guarded.
    [stopRecording] called while not recording returns at once, before any
    awaited step: the state is as it was, notification count included,
    whatever the recorder would have answered.  [play] called with no buffer
    loaded does likewise, so an idle unit stays idle.  The other
    operations are not guarded: [stop] always clears [isPlaying] and
    dispatches one notification, on an idle unit too, and [play] with a
    buffer loaded always sets [isPlaying] and dispatches one notification,
    whatever the two flags were. *)
Theorem disabled_voice_operations_change_nothing :
  (forall (out : Voice.StopOutcome) (s : Voice.t),
      Voice.isRecording s = false ->
      Voice.stopRecording out s = s) /\
  (forall s : Voice.t,
      Voice.player_loaded s = false ->
      Voice.play s = s /\ (Voice.Idle s -> Voice.Idle (Voice.play s))) /\
  (forall a : VoiceAsync.t,
      Voice.isRecording (VoiceAsync.unit a) = false ->
      VoiceAsync.invoke VoiceAsync.StopRecording a = a) /\
  (forall s : Voice.t,
      Voice.isPlaying (Voice.stop s) = false /\
      Voice.isRecording (Voice.stop s) = Voice.isRecording s /\
      Voice.notifications (Voice.stop s) = S (Voice.notifications s)) /\
  (forall s : Voice.t,
      Voice.player_loaded s = true ->
      Voice.isPlaying (Voice.play s) = true /\
      Voice.isRecording (Voice.play s) = Voice.isRecording s /\
      Voice.notifications (Voice.play s) = S (Voice.notifications s)).
Proof.
  split; [| split; [| split; [| split]]].
  - intros out s H. unfold Voice.stopRecording. now rewrite H.
  - intros s H. unfold Voice.play. rewrite H. split; [reflexivity | tauto].
  - intros a H. unfold VoiceAsync.invoke. now rewrite H.
  - intros s. repeat split.
  - intros s H. unfold Voice.play. rewrite H. repeat split.
Qed.

Lemma disabled_voice_operations_change_nothing_witness :
  Voice.stopRecording (Voice.Blob 1024 true) Voice.constructed
  = Voice.constructed /\
  Voice.play Voice.constructed = Voice.constructed /\
  Voice.notifications (Voice.play (Voice.loadFile true Voice.constructed))
  = 3%nat.
Proof.
  split; [| split].
  - apply (proj1 disabled_voice_operations_change_nothing). reflexivity.
  - apply (proj1 (proj2 disabled_voice_operations_change_nothing)).
    reflexivity.
  - apply (proj2 (proj2 (proj2 (proj2
             disabled_voice_operations_change_nothing)))).
    reflexivity.
Defined.

(** C8 (as stated) fails: not every operation whose transition is not
    enabled is a no-op.  [stop] on the idle unit just constructed changes
    the state, by dispatching a notification; [play] during a recording,
    with a buffer loaded, sets [isPlaying] and dispatches one as well. *)
Lemma stop_on_idle_unit_dispatches :
  let s0 := Voice.constructed in
  let s1 := Voice.run [Voice.LoadFile true; Voice.StartRecording true]
              Voice.constructed in
  Voice.Idle s0 /\
  Voice.stop s0 <> s0 /\
  Voice.notifications (Voice.stop s0) = S (Voice.notifications s0) /\
  Voice.Recording s1 /\
  Voice.play s1 <> s1 /\
  Voice.notifications (Voice.play s1) = S (Voice.notifications s1).
Proof.
  unfold Voice.Idle, Voice.Recording. simpl.
  repeat split; try reflexivity; intros H; discriminate H.
Qed.

Section VoiceModes.

Import VoiceAsync.

Lemma in_remove_nth (x : Task) (n : nat) (l : list Task) :
  In x (remove_nth n l) -> In x l.
Proof.
  revert n. induction l as [| y l IH]; intros [| n]; simpl; auto.
  intros [H | H]; [now left | right; now apply (IH n)].
Qed.

Lemma in_snoc_other (x y : Task) (l : list Task) :
  x <> y -> In x (l ++ [y]) -> In x l.
Proof.
  intros Hne H. apply in_app_iff in H. destruct H as [H | [H | []]];
    [exact H | congruence].
Qed.

(** What the methods do to the two flags. *)
Lemma startRecording_isPlaying (ok : bool) (s : Voice.t) :
  Voice.isPlaying (Voice.startRecording ok s) = Voice.isPlaying s.
Proof.
  unfold Voice.startRecording, Voice.startMic.
  destruct (Voice.mic_started s) eqn:E; cbn; rewrite ?E; [reflexivity|].
  destruct ok; cbn; rewrite ?E; reflexivity.
Qed.

Lemma loadFile_flags (ok : bool) (s : Voice.t) :
  Voice.isPlaying (Voice.loadFile ok s) = Voice.isPlaying s /\
  Voice.isRecording (Voice.loadFile ok s) = Voice.isRecording s.
Proof. destruct ok; split; reflexivity. Qed.

Lemma play_isRecording (s : Voice.t) :
  Voice.isRecording (Voice.play s) = Voice.isRecording s.
Proof. unfold Voice.play. destruct (Voice.player_loaded s); reflexivity. Qed.

(** The flags after the completion of an awaited step. *)
Lemma complete_flags (task : Task) (ans : Answer) (a : t) :
  Voice.isPlaying (unit (complete task ans a)) = Voice.isPlaying (unit a) /\
  (task <> AwaitMic ->
   Voice.isRecording (unit (complete task ans a)) = true ->
   Voice.isRecording (unit a) = true) /\
  (In AwaitMic (pending (complete task ans a)) -> In AwaitMic (pending a)).
Proof.
  destruct task; unfold complete; cbn.
  - split; [apply startRecording_isPlaying|].
    split; [congruence | auto].
  - destruct (resolved ans && (size ans >? 0)); cbn;
      (split; [reflexivity|]); (split; [discriminate|]);
      [apply in_snoc_other; discriminate | auto].
  - destruct (resolved ans); cbn; (split; [reflexivity|]);
      (split; auto).
  - destruct (loadFile_flags (resolved ans) (unit a)) as [H1 H2].
    split; [exact H1|]. split; [now rewrite H2 | auto].
Qed.

Lemma step_keeps_exclusive (e : Event) (a : t) :
  Voice.exclusive (unit a) -> settled a -> allowed e a ->
  Voice.exclusive (unit (step e a)) /\ settled (step e a).
Proof.
  unfold Voice.exclusive, Voice.Recording, Voice.Playing, settled.
  intros He Hs Ha.
  destruct e as [[| | | |] | n ans]; cbn [step invoke allowed] in *.
  - cbn. split; [exact He | intros _; exact Ha].
  - destruct (negb (Voice.isRecording (unit a))); cbn;
      [now split|].
    split; [exact He|]. intros H. apply Hs.
    apply (in_snoc_other _ AwaitRecorderStop); [discriminate | exact H].
  - destruct Ha as [Hr Hn]. cbn. split.
    + rewrite play_isRecording. intros [H _]. congruence.
    + intros H. contradiction.
  - cbn. split; [intros [_ H]; discriminate H | reflexivity].
  - cbn. split; [exact He|]. intros H. apply Hs.
    apply (in_snoc_other _ AwaitFileLoad); [discriminate | exact H].
  - unfold resume.
    destruct (nth_error (pending a) n) as [task |] eqn:E; [| now split].
    set (a0 := {| unit := unit a; pending := remove_nth n (pending a) |}).
    destruct (complete_flags task ans a0) as (Hp & Hr & Hq).
    split.
    + rewrite Hp. cbn [a0 unit]. intros [H1 H2].
      destruct task; try (apply He; split;
                          [apply Hr; [discriminate | exact H1] | exact H2]).
      apply nth_error_In in E. specialize (Hs E). congruence.
    + rewrite Hp. intros H. apply Hs. apply (in_remove_nth _ n).
      exact (Hq H).
Qed.

Lemma step_out_of_recording (e : Event) (a : t) :
  Voice.exclusive (unit a) -> allowed e a ->
  Voice.Recording (unit a) -> ~ Voice.Playing (unit (step e a)).
Proof.
  unfold Voice.exclusive, Voice.Recording, Voice.Playing.
  intros He Ha Hr Hp.
  assert (Hnp : Voice.isPlaying (unit a) <> true)
    by (intros H; apply He; now split).
  destruct e as [[| | | |] | n ans]; cbn [step invoke allowed] in *.
  - cbn in Hp. contradiction.
  - destruct (negb (Voice.isRecording (unit a))); cbn in Hp;
      contradiction.
  - destruct Ha as [Ha _]. congruence.
  - cbn in Hp. discriminate Hp.
  - cbn in Hp. contradiction.
  - unfold resume in Hp.
    destruct (nth_error (pending a) n) as [task |]; [| contradiction].
    destruct (complete_flags task ans
                {| unit := unit a; pending := remove_nth n (pending a) |})
      as (Hq & _ & _).
    rewrite Hq in Hp. cbn in Hp. contradiction.
Qed.

(** Calls whose awaited steps complete before the next call are the
    methods run to their end. *)
Lemma uninterleaved_calls (s : Voice.t) (ans ans2 : Answer) :
  resume 0 ans (invoke StartRecording (idle s))
  = idle (Voice.startRecording (resolved ans) s) /\
  resume 0 ans (invoke LoadFile (idle s))
  = idle (Voice.loadFile (resolved ans) s) /\
  unit (resume 0 ans2 (resume 0 ans (invoke StopRecording (idle s))))
  = Voice.stopRecording
      (if resolved ans
       then Voice.Blob (size ans) (resolved ans2)
       else Voice.StopRejected) s.
Proof.
  split; [reflexivity | split; [reflexivity|]].
  unfold invoke, idle, Voice.stopRecording. cbn [unit pending].
  destruct (Voice.isRecording s); cbn; [| reflexivity].
  destruct (resolved ans); cbn; [| reflexivity].
  destruct (size ans >? 0); cbn; [| reflexivity].
  destruct (resolved ans2); reflexivity.
Qed.

End VoiceModes.

(** C7 (as the code has it).  [isRecording] and [isPlaying] are two
    independent flags.  [play] enters Playing exactly when a buffer is
    loaded, recording or not, and [startRecording] sets [isRecording] only
    when its awaited microphone step completes.  Take any interleaving of
    calls and completions of awaited steps in which the caller does not
    call [play] while recording or while a [startRecording] is pending, nor
    [startRecording] while playing.  Started from a state in which the two
    modes are not both active and no [startRecording] is pending on a
    playing unit, the two modes are never active together in any state
    passed through, and no single step leads from a Recording state to a
    Playing one. *)
Theorem exclusive_for_disciplined_callers :
  (forall s : Voice.t,
      Voice.isPlaying (Voice.play s)
      = Voice.player_loaded s || Voice.isPlaying s) /\
  (forall (events : list VoiceAsync.Event) (a : VoiceAsync.t),
      Voice.exclusive (VoiceAsync.unit a) ->
      VoiceAsync.settled a ->
      VoiceAsync.disciplined events a ->
      Forall (fun b => Voice.exclusive (VoiceAsync.unit b))
        (VoiceAsync.trace events a) /\
      VoiceAsync.adjacent
        (fun b c =>
           Voice.Recording (VoiceAsync.unit b) ->
           ~ Voice.Playing (VoiceAsync.unit c))
        (VoiceAsync.trace events a)).
Proof.
  split.
  - intros s. unfold Voice.play. destruct (Voice.player_loaded s); reflexivity.
  - induction events as [| e rest IH]; intros a He Hs Hd; simpl.
    + split; [constructor; [exact He | constructor] | exact I].
    + destruct Hd as [Ha Hd].
      destruct (step_keeps_exclusive e a He Hs Ha) as [He' Hs'].
      destruct (IH (VoiceAsync.step e a) He' Hs' Hd) as [IH1 IH2].
      split; [constructor; assumption|].
      destruct rest as [| e2 rest2]; simpl in *;
        (split; [intros Hr; now apply step_out_of_recording | ]);
        [exact I | exact IH2].
Qed.

(** A disciplined run from the constructed unit: record while a file load
    is in flight, stop with a non-empty blob that loads, play, stop. *)
Lemma exclusive_for_disciplined_callers_witness :
  Forall (fun b => Voice.exclusive (VoiceAsync.unit b))
    (VoiceAsync.trace
       [VoiceAsync.Invoke VoiceAsync.StartRecording;
        VoiceAsync.Invoke VoiceAsync.LoadFile;
        VoiceAsync.Resume 0 (VoiceAsync.mkAnswer true 0);
        VoiceAsync.Invoke VoiceAsync.StopRecording;
        VoiceAsync.Resume 0 (VoiceAsync.mkAnswer true 0);
        VoiceAsync.Resume 0 (VoiceAsync.mkAnswer true 1024);
        VoiceAsync.Resume 0 (VoiceAsync.mkAnswer true 0);
        VoiceAsync.Invoke VoiceAsync.Play;
        VoiceAsync.Invoke VoiceAsync.Stop]
       (VoiceAsync.idle Voice.constructed)).
Proof.
  apply (proj2 exclusive_for_disciplined_callers).
  - unfold Voice.exclusive, Voice.Recording, Voice.Playing. simpl.
    intros [H _]. discriminate H.
  - intros [].
  - simpl. repeat split; try reflexivity. intros [].
Defined.

(** Why a pending [startRecording] counts: called on an idle unit with a
    buffer loaded and followed by [play] before the microphone has
    answered, it ends with both modes active, although neither call was
    made while the other mode was on. *)
Lemma play_before_startRecording_completes :
  let a0 := VoiceAsync.idle (Voice.loadFile true Voice.constructed) in
  let a1 := VoiceAsync.invoke VoiceAsync.StartRecording a0 in
  let a2 := VoiceAsync.invoke VoiceAsync.Play a1 in
  let a3 := VoiceAsync.resume 0 (VoiceAsync.mkAnswer true 0) a2 in
  Voice.isPlaying (VoiceAsync.unit a0) = false /\
  Voice.isRecording (VoiceAsync.unit a1) = false /\
  Voice.Recording (VoiceAsync.unit a3) /\
  Voice.Playing (VoiceAsync.unit a3).
Proof.
  unfold Voice.Recording, Voice.Playing. simpl. repeat split.
Qed.

(** C7 (as stated) fails: with a buffer loaded from a file, [play] during a
    recording leads straight from Recording to a state that is both
    Recording and Playing. *)
Lemma play_while_recording_enters_playing :
  let s1 := Voice.run [Voice.LoadFile true; Voice.StartRecording true]
              Voice.constructed in
  let s2 := Voice.play s1 in
  Voice.Recording s1 /\ ~ Voice.Playing s1 /\
  Voice.Recording s2 /\ Voice.Playing s2 /\ ~ Voice.exclusive s2.
Proof.
  unfold Voice.exclusive, Voice.Recording, Voice.Playing. simpl.
  repeat split; try reflexivity; try discriminate.
  intros H. apply H. split; reflexivity.
Qed.

(** ** Effect presets *)

(** [named] lists what each [case] assigns: the overlay leaves every other
    parameter as it finds it. *)
Lemma overlay_only_named (index : Z) (p : Voice.Param) (f : Voice.FX) :
  ~ In p (Voice.named index) ->
  Voice.value p (Voice.overlay index f) = Voice.value p f.
Proof.
  intros H.
  destruct index as [| [[[n|n|]|[n|n|]|]|[[n|n|]|[n|n|]|]|] | n];
    try reflexivity;
    destruct p; try reflexivity; exfalso; apply H; simpl; tauto.
Qed.

(** [resetFX] brings every parameter to its neutral value, except the
    vibrato frequency and the delay feedback, which it does not write. *)
Lemma resetFX_neutral_but_two (p : Voice.Param) (f : Voice.FX) :
  p <> Voice.VibratoFrequency -> p <> Voice.DelayFeedback ->
  Voice.value p (Voice.resetFX f) = Voice.value p Voice.neutral.
Proof. destruct p; intros H1 H2; try reflexivity; congruence. Qed.

(** C2 (what the code does).  After [setPreset index], every parameter that
    the preset does not name is neutral, provided it is not the vibrato
    frequency or the delay feedback; preset 1 leaves the three EQ bands
    neutral and sets pitch to -12 and distortion to 0.2.  The vibrato
    frequency and the delay feedback are not reset: preset 1 selected after
    preset 4 keeps the vibrato frequency at 50, and selected after preset 5
    keeps the delay feedback at 0.6, although preset 1 names neither and
    their neutral value is 0. *)
Theorem setPreset_reset_misses_two_parameters :
  (forall (index : Z) (p : Voice.Param) (s : Voice.t),
      ~ In p (Voice.named index) ->
      p <> Voice.VibratoFrequency -> p <> Voice.DelayFeedback ->
      Voice.value p (Voice.fx (Voice.setPreset index s))
      = Voice.value p Voice.neutral) /\
  (forall s : Voice.t,
      let f := Voice.fx (Voice.setPreset 1 s) in
      Voice.eqHigh f = 0%Q /\ Voice.eqMid f = 0%Q /\ Voice.eqLow f = 0%Q /\
      Voice.pitch f = (-12)%Q /\ Voice.distortion f = 0.2%Q) /\
  (~ In Voice.VibratoFrequency (Voice.named 1) /\
   Voice.value Voice.VibratoFrequency Voice.neutral = 0%Q /\
   Voice.value Voice.VibratoFrequency
     (Voice.fx (Voice.setPreset 1 (Voice.setPreset 4 Voice.constructed)))
   = 50%Q) /\
  (~ In Voice.DelayFeedback (Voice.named 1) /\
   Voice.value Voice.DelayFeedback Voice.neutral = 0%Q /\
   Voice.value Voice.DelayFeedback
     (Voice.fx (Voice.setPreset 1 (Voice.setPreset 5 Voice.constructed)))
   = 0.6%Q).
Proof.
  split; [| split; [| split]].
  - intros index p s Hn Hv Hd. unfold Voice.setPreset. simpl.
    rewrite overlay_only_named by exact Hn.
    now apply resetFX_neutral_but_two.
  - intros s. simpl. repeat split; reflexivity.
  - split; [| split; reflexivity].
    simpl. intros [H | [H | []]]; discriminate H.
  - split; [| split; reflexivity].
    simpl. intros [H | [H | []]]; discriminate H.
Qed.

(** ** Peak picking *)

Section Scan.

Import Tempo.

(** [Math.floor(sampleRate / 4)] is integer division by 4. *)
Lemma floor_quarter (sr : Z) :
  Num.Math_floor (inject_Z sr / 4)%Q = sr / 4.
Proof.
  unfold Num.Math_floor, Qfloor, inject_Z, Qdiv, Qmult, Qinv. simpl.
  now rewrite Z.mul_1_r.
Qed.

Lemma skip_positive (sr : Z) :
  0 <= sr -> 4 <= Num.Math_floor (inject_Z sr / 4)%Q + step.
Proof.
  intros H. rewrite floor_quarter. unfold step.
  pose proof (Z.div_pos sr 4 H). lia.
Qed.

Variable get : Z -> option Q.
Variables len sr : Z.

(** With a non-negative sample rate the position grows by at least 4 in
    every iteration, so [len - i] iterations are enough. *)
Lemma scan_peaks_terminates (fuel : nat) :
  0 <= sr ->
  forall (i : Z) (peaks : list Z),
    len - i <= Z.of_nat fuel ->
    exists r, scan_peaks fuel get len sr i peaks = Some r.
Proof.
  intros Hsr. pose proof (skip_positive sr Hsr) as Hskip.
  induction fuel as [| fuel IH]; intros i peaks Hf; cbn [scan_peaks].
  - destruct (Z.ltb_spec i len); [lia | eauto].
  - destruct (Z.ltb_spec i len); [| eauto].
    destruct (above_threshold (get i)); apply IH; unfold step in *; lia.
Qed.

(** A loop that finds no sample above the threshold returns the peaks it
    started with. *)
Lemma scan_peaks_nothing_above (fuel : nat) :
  (forall j, above_threshold (get j) = false) ->
  forall (i : Z) (peaks r : list Z),
    scan_peaks fuel get len sr i peaks = Some r -> r = peaks.
Proof.
  intros Hq. induction fuel as [| fuel IH]; intros i peaks r; cbn [scan_peaks].
  - destruct (i <? len); [discriminate | congruence].
  - destruct (i <? len); [| congruence].
    rewrite Hq. apply IH.
Qed.

(** The peaks returned are those given at the start together with the
    examined indices whose sample is above the threshold. *)
Lemma scan_peaks_characterised (fuel : nat) :
  forall (i : Z) (peaks r : list Z),
    scan_peaks fuel get len sr i peaks = Some r ->
    forall p,
      In p r <->
      In p peaks \/
      (Scanned get len sr i p /\ above_threshold (get p) = true).
Proof.
  induction fuel as [| fuel IH]; intros i peaks r; cbn [scan_peaks].
  - destruct (Z.ltb_spec i len) as [Hlt | Hge]; [discriminate|].
    intros [= <-] p. split; [tauto|].
    intros [H | [H _]]; [exact H|]. inversion H; lia.
  - destruct (Z.ltb_spec i len) as [Hlt | Hge].
    + destruct (above_threshold (get i)) eqn:Ea; intros Hs p;
        rewrite (IH _ _ _ Hs p).
      * rewrite in_app_iff. cbn [In]. split.
        -- intros [[H | [<- | []]] | [H1 H2]].
           ++ tauto.
           ++ right. split; [now constructor | exact Ea].
           ++ right. split; [| exact H2].
              apply Scanned_later; [exact Hlt|].
              unfold next_index. now rewrite Ea.
        -- intros [H | [H1 H2]]; [tauto|].
           inversion H1 as [k Hk | k j Hk Hn]; subst.
           ++ tauto.
           ++ right. split; [| exact H2].
              unfold next_index in Hn. now rewrite Ea in Hn.
      * split.
        -- intros [H | [H1 H2]]; [tauto|].
           right. split; [| exact H2].
           apply Scanned_later; [exact Hlt|].
           unfold next_index. now rewrite Ea.
        -- intros [H | [H1 H2]]; [tauto|].
           inversion H1 as [k Hk | k j Hk Hn]; subst.
           ++ congruence.
           ++ right. split; [| exact H2].
              unfold next_index in Hn. now rewrite Ea in Hn.
    + intros [= <-] p. split; [tauto|].
      intros [H | [H _]]; [exact H|]. inversion H; lia.
Qed.

Lemma chain_snoc (R : Z -> Z -> Prop) (l : list Z) (x : Z) :
  chain R l -> (forall a, In a l -> R a x) -> chain R (l ++ [x]).
Proof.
  induction l as [| a [| b l] IH]; intros Hc Hx; simpl in *.
  - exact I.
  - split; [apply Hx; now left | exact I].
  - destruct Hc as [Hab Hc]. split; [exact Hab|].
    apply IH; [exact Hc |]. intros c Hin. apply Hx. now right.
Qed.

(** Consecutive peaks are at least [floor(sampleRate / 4) + step] apart. *)
Lemma scan_peaks_spaced (fuel : nat) :
  0 <= sr ->
  let skip := Num.Math_floor (inject_Z sr / 4)%Q + step in
  forall (i : Z) (peaks r : list Z),
    chain (fun a b => a + skip <= b) peaks ->
    (forall a, In a peaks -> a + skip <= i) ->
    scan_peaks fuel get len sr i peaks = Some r ->
    chain (fun a b => a + skip <= b) r.
Proof.
  intros Hsr skip. pose proof (skip_positive sr Hsr) as Hskip.
  fold skip in Hskip.
  induction fuel as [| fuel IH]; intros i peaks r Hc Hb; cbn [scan_peaks].
  - destruct (i <? len); [discriminate | congruence].
  - destruct (i <? len); [| congruence].
    destruct (above_threshold (get i)).
    + apply IH.
      * apply chain_snoc; assumption.
      * intros a Ha. apply in_app_iff in Ha.
        destruct Ha as [Ha | [<- | []]].
        -- specialize (Hb a Ha). fold skip. lia.
        -- fold skip. lia.
    + apply IH; [exact Hc|].
      intros a Ha. specialize (Hb a Ha). unfold step. lia.
Qed.

End Scan.

Section Buffers.

Import Tempo.

(** Two arrays that agree on [0 .. len - 1] are scanned alike. *)
Lemma scan_peaks_ext (get1 get2 : Z -> option Q) (len sr : Z) (fuel : nat) :
  0 <= sr ->
  (forall j, 0 <= j < len -> get1 j = get2 j) ->
  forall (i : Z) (peaks : list Z),
    0 <= i ->
    scan_peaks fuel get1 len sr i peaks
    = scan_peaks fuel get2 len sr i peaks.
Proof.
  intros Hsr Hext. pose proof (skip_positive sr Hsr) as Hskip.
  induction fuel as [| fuel IH]; intros i peaks Hi; cbn [scan_peaks].
  - reflexivity.
  - destruct (Z.ltb_spec i len) as [Hlt | Hge]; [| reflexivity].
    rewrite <- (Hext i) by lia.
    destruct (above_threshold (get1 i)); apply IH; unfold step in *; lia.
Qed.

Lemma length_tabulate (len : Z) (f : Z -> Q) :
  length (tabulate len f) = Z.to_nat len.
Proof. unfold tabulate. now rewrite length_map, length_seq. Qed.

Lemma sample_at_tabulate (len : Z) (f : Z -> Q) (j : Z) :
  0 <= j < len -> sample_at (tabulate len f) j = Some (f j).
Proof.
  intros Hj. unfold sample_at, tabulate.
  destruct (Z.ltb_spec j 0); [lia|].
  rewrite nth_error_map, nth_error_seq.
  destruct (Nat.ltb_spec (Z.to_nat j) (Z.to_nat len)); [| lia].
  cbn [option_map Nat.add]. now rewrite Z2Nat.id by lia.
Qed.

(** The peaks of a tabulated buffer, computed on the tabulated function. *)
Lemma find_peaks_tabulate (len sr : Z) (f : Z -> Q) :
  0 <= sr -> 0 <= len ->
  find_peaks (mkBuffer (tabulate len f) sr)
  = scan_peaks (Z.to_nat len) (fun i => Some (f i)) len sr 0 [].
Proof.
  intros Hsr Hlen. unfold find_peaks. cbn [channelData sampleRate].
  rewrite length_tabulate, Z2Nat.id by exact Hlen.
  apply scan_peaks_ext; [exact Hsr | | lia].
  intros j Hj. now apply sample_at_tabulate.
Qed.

Lemma find_peaks_total (buffer : ToneAudioBuffer) :
  0 <= sampleRate buffer -> exists peaks, find_peaks buffer = Some peaks.
Proof.
  intros Hsr. unfold find_peaks.
  apply scan_peaks_terminates; [exact Hsr | lia].
Qed.

Lemma above_threshold_spec (s : option Q) :
  above_threshold s = true <-> exists x, s = Some x /\ (threshold < x)%Q.
Proof.
  destruct s as [x |]; simpl.
  - rewrite gtb_true_iff. split.
    + intros H. now exists x.
    + intros [y [[= <-] H]]. exact H.
  - split; [discriminate | intros [y [H _]]; discriminate H].
Qed.

Lemma no_sample_above (data : list Q) :
  Forall (fun x => (x <= threshold)%Q) data ->
  forall j, above_threshold (sample_at data j) = false.
Proof.
  intros Hall j. unfold sample_at.
  destruct (j <? 0); [reflexivity|].
  destruct (nth_error data (Z.to_nat j)) as [x |] eqn:E; [| reflexivity].
  simpl. apply gtb_false_iff.
  apply nth_error_In in E. rewrite Forall_forall in Hall. now apply Hall.
Qed.

Lemma quiet_buffer_no_peaks (buffer : ToneAudioBuffer) (peaks : list Z) :
  find_peaks buffer = Some peaks ->
  Forall (fun x => (x <= threshold)%Q) (channelData buffer) ->
  peaks = [].
Proof.
  intros Hf Hall. unfold find_peaks in Hf.
  apply (scan_peaks_nothing_above _ _ _ _
           (no_sample_above (channelData buffer) Hall) _ _ _ Hf).
Qed.

Lemma few_peaks_zero (sr : Z) (peaks : list Z) :
  (length peaks < 10)%nat -> bpm_of_peaks sr peaks = 0%Q.
Proof.
  intros H. unfold bpm_of_peaks.
  destruct (Z.ltb_spec (Z.of_nat (length peaks)) 10); [reflexivity | lia].
Qed.

End Buffers.

(** C6 (as the code has it).  The peaks returned are exactly the indices
    examined by the loop whose sample value, taken with its sign, is greater
    than 0.6; in particular a buffer with no sample above 0.6, however far
    it swings below -0.6, has no peak.  After a peak the position advances
    by [floor(sampleRate / 4) + 4], so consecutive peaks are at least that
    far apart. *)
Theorem peaks_are_examined_samples_above_threshold :
  forall (buffer : Tempo.ToneAudioBuffer) (peaks : list Z),
    Tempo.find_peaks buffer = Some peaks ->
    let data := Tempo.channelData buffer in
    let len := Z.of_nat (length data) in
    let sr := Tempo.sampleRate buffer in
    (forall p,
        In p peaks <->
        Tempo.Scanned (Tempo.sample_at data) len sr 0 p /\
        exists x, Tempo.sample_at data p = Some x /\ (Tempo.threshold < x)%Q)
    /\
    (Forall (fun x => (x <= Tempo.threshold)%Q) data -> peaks = [])
    /\
    (0 <= sr ->
     Tempo.chain
       (fun a b => a + (Num.Math_floor (inject_Z sr / 4)%Q + Tempo.step) <= b)
       peaks).
Proof.
  intros buffer peaks Hf data len sr. pose proof Hf as Hscan.
  unfold Tempo.find_peaks in Hscan. fold data len sr in Hscan.
  split; [| split].
  - intros p.
    rewrite (scan_peaks_characterised _ _ _ _ _ _ _ Hscan p).
    rewrite above_threshold_spec. simpl. tauto.
  - intros Hall. now apply (quiet_buffer_no_peaks buffer).
  - intros Hsr.
    apply (scan_peaks_spaced (Tempo.sample_at data) len sr (length data) Hsr
             0 [] peaks); [exact I | intros a [] | exact Hscan].
Qed.

(** C9. With a sample rate that is not negative, [detectBPM] returns; it
    returns 0 whenever fewer than ten peaks are found, on the empty buffer,
    on silence, and more generally whenever no sample exceeds the
    threshold. *)
Theorem detectBPM_returns_and_is_zero_on_degenerate_input :
  forall buffer : Tempo.ToneAudioBuffer,
    0 <= Tempo.sampleRate buffer ->
    (exists bpm, Tempo.detectBPM buffer = Some bpm) /\
    (exists peaks,
        Tempo.find_peaks buffer = Some peaks /\
        ((length peaks < 10)%nat -> Tempo.detectBPM buffer = Some 0%Q)) /\
    (Tempo.channelData buffer = [] -> Tempo.detectBPM buffer = Some 0%Q) /\
    (Forall (fun x => (x == 0)%Q) (Tempo.channelData buffer) ->
     Tempo.detectBPM buffer = Some 0%Q) /\
    (Forall (fun x => (x <= Tempo.threshold)%Q) (Tempo.channelData buffer) ->
     Tempo.detectBPM buffer = Some 0%Q).
Proof.
  intros buffer Hsr.
  destruct (find_peaks_total buffer Hsr) as [peaks Hp].
  assert (Hquiet :
            Forall (fun x => (x <= Tempo.threshold)%Q)
                   (Tempo.channelData buffer) ->
            Tempo.detectBPM buffer = Some 0%Q).
  { intros Hall.
    rewrite (quiet_buffer_no_peaks buffer peaks Hp Hall) in Hp.
    unfold Tempo.detectBPM. rewrite Hp. reflexivity. }
  split; [| split; [| split; [| split]]].
  - unfold Tempo.detectBPM. rewrite Hp. eauto.
  - exists peaks. split; [exact Hp|].
    intros Hfew. unfold Tempo.detectBPM. rewrite Hp.
    now rewrite few_peaks_zero.
  - intros Hnil. apply Hquiet. rewrite Hnil. constructor.
  - intros Hzero. apply Hquiet.
    apply Forall_impl with (2 := Hzero).
    intros x Hx. rewrite Hx. discriminate.
  - exact Hquiet.
Qed.

Lemma peaks_are_examined_samples_above_threshold_witness :
  let buffer := Tempo.mkBuffer [1; 0; 0; 0; 0.7; 0; 0; 0; -0.9]%Q 0 in
  Tempo.find_peaks buffer = Some [0; 4] /\
  (In 8 [0; 4] <->
   Tempo.Scanned (Tempo.sample_at (Tempo.channelData buffer)) 9 0 0 8 /\
   exists x,
     Tempo.sample_at (Tempo.channelData buffer) 8 = Some x /\
     (Tempo.threshold < x)%Q).
Proof.
  intros buffer. split; [reflexivity|].
  apply (proj1 (peaks_are_examined_samples_above_threshold
                  buffer [0; 4] eq_refl) 8).
Defined.

Lemma detectBPM_returns_and_is_zero_on_degenerate_input_witness :
  0 <= 44100 /\
  Tempo.detectBPM (Tempo.mkBuffer [0; 0; 0; 0; 0; 0; 0; 0]%Q 44100)
  = Some 0%Q.
Proof.
  split; [lia|].
  destruct (detectBPM_returns_and_is_zero_on_degenerate_input
              (Tempo.mkBuffer [0; 0; 0; 0; 0; 0; 0; 0]%Q 44100))
    as (_ & _ & _ & Hsilence & _).
  - simpl. lia.
  - apply Hsilence. simpl. repeat (constructor; [reflexivity|]). constructor.
Defined.

(** ** The estimator on the test buffers *)

Section Evaluation.

Import Tempo.

Ltac peaks_by_computation :=
  rewrite find_peaks_tabulate by lia; vm_compute; reflexivity.

Lemma find_peaks_impulses_120bpm :
  find_peaks impulses_120bpm = Some [0].
Proof. unfold impulses_120bpm. peaks_by_computation. Qed.

Lemma find_peaks_bursts_120bpm :
  find_peaks bursts_120bpm
  = Some [0; 22053; 44102; 66151; 88200; 110253; 132302; 154351; 176400;
          198453; 220502; 242551; 264600; 286653; 308702; 330751; 352800;
          374853; 396902; 418951].
Proof. unfold bursts_120bpm. peaks_by_computation. Qed.

Lemma find_peaks_clicks_8k :
  find_peaks clicks_8k
  = Some [0; 4100; 8200; 12300; 16400; 20500; 24600; 28700; 32800; 36900;
          41000].
Proof. unfold clicks_8k. peaks_by_computation. Qed.

Lemma find_peaks_negative_clicks_8k :
  find_peaks negative_clicks_8k = Some [].
Proof. unfold negative_clicks_8k. peaks_by_computation. Qed.

Lemma find_peaks_alternating_8k :
  find_peaks alternating_8k
  = Some [0; 6000; 10000; 16000; 20000; 26000; 30000; 36000; 40000; 46000;
          50000].
Proof. unfold alternating_8k. peaks_by_computation. Qed.

Lemma find_peaks_clicks_1280 :
  find_peaks clicks_1280
  = Some [0; 324; 648; 972; 1296; 1620; 1944; 2268; 2592; 2916; 3240].
Proof. unfold clicks_1280. peaks_by_computation. Qed.

Lemma detectBPM_of_peaks (buffer : ToneAudioBuffer) (peaks : list Z) :
  find_peaks buffer = Some peaks ->
  detectBPM buffer = Some (bpm_of_peaks (sampleRate buffer) peaks).
Proof. intros H. unfold detectBPM. now rewrite H. Qed.

End Evaluation.

(** C3 (what the code does).  On an 8 kHz buffer with a click every 4100
    samples the intervals are counted in raw samples and then multiplied by
    the stride again, which gives 60 * 8000 / (4100 * 4), about 29.3; this
    is below 70, so its double is returned at once: 2400/41, about 58.5,
    which is neither in [70, 180] nor an integer. *)
Theorem detectBPM_below_range_and_unrounded :
  exists bpm : Q,
    Tempo.detectBPM Tempo.clicks_8k = Some bpm /\
    (bpm == 2400 # 41)%Q /\
    ~ (bpm == 0)%Q /\
    ~ (70 <= bpm <= 180)%Q /\
    ~ Num.is_integer bpm.
Proof.
  eexists. split; [apply detectBPM_of_peaks, find_peaks_clicks_8k|].
  set (b := Tempo.bpm_of_peaks _ _).
  assert (E : (b == 2400 # 41)%Q) by (vm_compute; reflexivity).
  split; [exact E|].
  split; [| split].
  - intros H. rewrite E in H. discriminate H.
  - intros [H _]. rewrite E in H. unfold Qle in H. simpl in H. lia.
  - intros [n Hn]. rewrite E in Hn. unfold Qeq in Hn. simpl in Hn. lia.
Qed.

(** C4 (what the code does).  Ten seconds at 44.1 kHz with a click every
    half second.  With one-sample clicks the loop, which after the first
    peak examines only indices that are 1 modulo 4, meets no further click
    and 0 is returned.  With eight-sample clicks twenty peaks are found,
    about 22050 samples apart; the interval in raw samples is multiplied by
    the stride, which gives about 30, and its double 1323/22, about 60.1,
    is returned.  Neither is 120. *)
Theorem detectBPM_click_track_120bpm :
  Tempo.detectBPM Tempo.impulses_120bpm = Some 0%Q /\
  exists bpm : Q,
    Tempo.detectBPM Tempo.bursts_120bpm = Some bpm /\
    (bpm == 1323 # 22)%Q /\ ~ (bpm == 120)%Q.
Proof.
  split.
  - rewrite (detectBPM_of_peaks _ _ find_peaks_impulses_120bpm).
    reflexivity.
  - eexists. split; [apply detectBPM_of_peaks, find_peaks_bursts_120bpm|].
    cbn [Tempo.sampleRate Tempo.bursts_120bpm].
    set (b := Tempo.bpm_of_peaks _ _).
    assert (E : (b == 1323 # 22)%Q) by (vm_compute; reflexivity).
    split; [exact E|].
    intros H. rewrite E in H. discriminate H.
Qed.

(** C6 (as stated) fails: in a buffer whose clicks go to -0.9 the first
    sample is examined and its absolute value exceeds 0.6, yet no peak is
    recorded, and the estimate is 0. *)
Lemma negative_transients_are_not_peaks :
  let data := Tempo.channelData Tempo.negative_clicks_8k in
  Tempo.Scanned (Tempo.sample_at data) 41001 8000 0 0 /\
  Tempo.sample_at data 0 = Some (-0.9)%Q /\
  Tempo.spec_above_threshold (Tempo.sample_at data 0) = true /\
  Tempo.find_peaks Tempo.negative_clicks_8k = Some [] /\
  Tempo.detectBPM Tempo.negative_clicks_8k = Some 0%Q.
Proof.
  intros data.
  assert (E : Tempo.sample_at data 0 = Some (-0.9)%Q).
  { unfold data, Tempo.negative_clicks_8k. cbn [Tempo.channelData].
    now rewrite sample_at_tabulate by lia. }
  split; [constructor; lia|].
  split; [exact E|].
  split; [rewrite E; reflexivity|].
  split; [exact find_peaks_negative_clicks_8k|].
  rewrite (detectBPM_of_peaks _ _ find_peaks_negative_clicks_8k).
  reflexivity.
Qed.

(** C5 (as stated) fails: in a buffer whose clicks are alternately 6000 and
    4000 samples apart, the bucket 6000 is produced first and the buckets
    6000 and 4000 both count five intervals; the bucket selected is 4000. *)
Lemma tie_is_not_resolved_by_first_encountered :
  exists peaks : list Z,
    Tempo.find_peaks Tempo.alternating_8k = Some peaks /\
    let intervals := Tempo.intervals_of peaks in
    map Tempo.quantize intervals
    = [6000; 4000; 6000; 4000; 6000; 4000; 6000; 4000; 6000; 4000] /\
    Tempo.bucket_count intervals 6000 = 5 /\
    Tempo.bucket_count intervals 4000 = 5 /\
    Tempo.spec_bestInterval_first_encountered intervals = 6000 /\
    Tempo.bestInterval_of intervals = 4000 /\
    Tempo.bestInterval_of intervals
    <> Tempo.spec_bestInterval_first_encountered intervals.
Proof.
  eexists. split; [exact find_peaks_alternating_8k|].
  vm_compute. repeat split; try reflexivity. discriminate.
Qed.

(** Deck A of a fresh engine loads a buffer estimated at 128 BPM: the
    master tempo, still at 120, becomes 128. *)
Lemma loadTrack_adopts_master_tempo_witness :
  exists (b : Q) (e' : AudioEngine.t),
    Tempo.detectBPM Tempo.clicks_1280 = Some b /\
    (b == 128)%Q /\
    AudioEngine.loadTrack AudioEngine.A (Some Tempo.clicks_1280)
      AudioEngine.init = Some e' /\
    AudioEngine.masterBpm e' = b.
Proof.
  pose proof (detectBPM_of_peaks _ _ find_peaks_clicks_1280) as Hd.
  cbn [Tempo.sampleRate Tempo.clicks_1280] in Hd.
  destruct (loadTrack_adopts_master_tempo AudioEngine.A Tempo.clicks_1280
              _ AudioEngine.init Hd) as (e' & Hl & _ & Hadopt & _).
  eexists. exists e'.
  split; [exact Hd|].
  split; [reflexivity|].
  split; [exact Hl|].
  apply Hadopt; reflexivity.
Defined.


(** ** The histogram and the selection of the most common interval *)

Section ObjectLemmas.

Import JSObject.

Lemma get_Some_in (o : t) (k c : Z) : get o k = Some c -> In (k, c) o.
Proof.
  induction o as [| [k' v'] o IH]; simpl; [discriminate|].
  destruct (Z.eqb_spec k' k) as [-> | Hne].
  - intros [= ->]. now left.
  - intros H. right. now apply IH.
Qed.

Lemma get_None_not_in (o : t) (k : Z) : get o k = None -> ~ In k (keys o).
Proof.
  induction o as [| [k' v'] o IH]; simpl; [tauto|].
  destruct (Z.eqb_spec k' k) as [-> | Hne]; [discriminate|].
  intros H [E | Hin]; [congruence | now apply IH].
Qed.

Lemma in_get (o : t) (k c : Z) :
  StronglySorted Z.lt (keys o) -> In (k, c) o -> get o k = Some c.
Proof.
  induction o as [| [k' v'] o IH]; simpl; [tauto|].
  intros Hs Hin. apply StronglySorted_inv in Hs. destruct Hs as [Hs Hall].
  destruct (Z.eqb_spec k' k) as [-> | Hne].
  - destruct Hin as [[= ->] | Hin]; [reflexivity|].
    rewrite Forall_forall in Hall.
    specialize (Hall k (in_map fst _ _ Hin)). lia.
  - destruct Hin as [[= E _] | Hin]; [congruence | now apply IH].
Qed.

Lemma get_update_same (o : t) (k v c : Z) :
  get o k = Some c -> get (update o k v) k = Some v.
Proof.
  induction o as [| [k' v'] o IH]; simpl; [discriminate|].
  destruct (Z.eqb_spec k' k) as [-> | Hne]; simpl.
  - now rewrite Z.eqb_refl.
  - destruct (Z.eqb_spec k' k); [congruence | exact IH].
Qed.

Lemma get_update_other (o : t) (k v k' : Z) :
  k' <> k -> get (update o k v) k' = get o k'.
Proof.
  intros Hne. induction o as [| [k1 v1] o IH]; simpl; [reflexivity|].
  destruct (Z.eqb_spec k1 k) as [-> | Hne1]; simpl.
  - destruct (Z.eqb_spec k k'); [congruence | reflexivity].
  - now rewrite IH.
Qed.

Lemma keys_update (o : t) (k v : Z) : keys (update o k v) = keys o.
Proof.
  induction o as [| [k1 v1] o IH]; simpl; [reflexivity|].
  destruct (Z.eqb_spec k1 k) as [-> | Hne]; simpl;
    [reflexivity | now f_equal].
Qed.

Lemma get_insert_same (o : t) (k v : Z) :
  get o k = None -> get (insert_index o k v) k = Some v.
Proof.
  induction o as [| [k1 v1] o IH]; simpl.
  - now rewrite Z.eqb_refl.
  - destruct (Z.eqb_spec k1 k) as [-> | Hne]; [discriminate|].
    intros H.
    destruct (negb (is_array_index k1) || (k <? k1)); simpl.
    + now rewrite Z.eqb_refl.
    + destruct (Z.eqb_spec k1 k); [congruence | now apply IH].
Qed.

Lemma get_insert_other (o : t) (k v k' : Z) :
  k' <> k -> get (insert_index o k v) k' = get o k'.
Proof.
  intros Hne. induction o as [| [k1 v1] o IH]; simpl.
  - destruct (Z.eqb_spec k k'); [congruence | reflexivity].
  - destruct (negb (is_array_index k1) || (k <? k1)); simpl.
    + destruct (Z.eqb_spec k k'); [congruence | reflexivity].
    + now rewrite IH.
Qed.

Lemma in_keys_insert (o : t) (k v x : Z) :
  In x (keys (insert_index o k v)) <-> x = k \/ In x (keys o).
Proof.
  induction o as [| [k1 v1] o IH]; simpl.
  - intuition.
  - destruct (negb (is_array_index k1) || (k <? k1)); simpl.
    + intuition.
    + rewrite IH. intuition.
Qed.

(** Among array indices, a new property goes to its place in ascending
    order. *)
Lemma sorted_insert (o : t) (k v : Z) :
  StronglySorted Z.lt (keys o) ->
  Forall (fun x => is_array_index x = true) (keys o) ->
  ~ In k (keys o) ->
  StronglySorted Z.lt (keys (insert_index o k v)).
Proof.
  unfold keys.
  induction o as [| [k1 v1] o IH]; simpl; intros Hs Hidx Hnot.
  - repeat constructor.
  - apply StronglySorted_inv in Hs. destruct Hs as [Hs Hall].
    inversion Hidx as [| ? ? Hk1 Hidx']; subst.
    rewrite Hk1. simpl.
    destruct (Z.ltb_spec k k1) as [Hlt | Hge]; simpl.
    + constructor; [constructor; assumption|].
      constructor; [exact Hlt|].
      apply Forall_impl with (2 := Hall). intros a Ha. lia.
    + constructor.
      * apply IH; [exact Hs | exact Hidx' |].
        intros Hin. apply Hnot. now right.
      * apply Forall_forall. intros x Hx.
        apply (in_keys_insert o k v x) in Hx. destruct Hx as [-> | Hx].
        -- assert (k1 <> k) by (intros E; apply Hnot; now left). lia.
        -- rewrite Forall_forall in Hall. now apply Hall.
Qed.

End ObjectLemmas.

Section Histogram.

Import Tempo.

(** [Math.round(interval / 100) * 100] in integer arithmetic. *)
Lemma quantize_div (i : Z) : quantize i = (i * 1 * 2 + 100) / 200 * 100.
Proof. reflexivity. Qed.

Lemma quantize_is_array_index (i : Z) :
  0 <= i < 2 ^ 32 - 100 -> JSObject.is_array_index (quantize i) = true.
Proof.
  change (2 ^ 32) with 4294967296. intros Hi.
  rewrite quantize_div. unfold JSObject.is_array_index.
  change (2 ^ 32) with 4294967296.
  pose proof (Z.mul_div_le (i * 1 * 2 + 100) 200 ltac:(lia)) as Hle.
  assert (0 <= (i * 1 * 2 + 100) / 200) by (apply Z.div_pos; lia).
  apply andb_true_iff. split; [apply Z.leb_le | apply Z.ltb_lt]; lia.
Qed.

Lemma occurrences_snoc (ks : list Z) (k k' : Z) :
  occurrences (ks ++ [k]) k'
  = occurrences ks k' + (if k =? k' then 1 else 0).
Proof.
  unfold occurrences. rewrite count_occ_app. simpl.
  destruct (Z.eq_dec k k') as [-> | Hne].
  - rewrite Z.eqb_refl. lia.
  - destruct (Z.eqb_spec k k'); [congruence | lia].
Qed.

Lemma counts_add_interval (o : JSObject.t) (ks : list Z) (i : Z) :
  JSObject.is_array_index (quantize i) = true ->
  counts o ks -> counts (add_interval o i) (ks ++ [quantize i]).
Proof.
  intros Hidx (Hs & Hall & Hget). unfold add_interval, JSObject.set.
  set (k := quantize i) in *.
  pose proof (Hget k) as Hk.
  destruct (JSObject.get o k) as [c |] eqn:Ek.
  - destruct Hk as [Hc Hpos].
    split; [| split].
    + now rewrite keys_update.
    + now rewrite keys_update.
    + intros k'. rewrite occurrences_snoc.
      destruct (Z.eqb_spec k k') as [<- | Hne].
      * rewrite (get_update_same o k (c + 1) c Ek). lia.
      * rewrite get_update_other by congruence.
        specialize (Hget k'). destruct (JSObject.get o k'); lia.
  - rewrite Hidx. pose proof (get_None_not_in o k Ek) as Hnot.
    split; [| split].
    + now apply sorted_insert.
    + apply Forall_forall. intros x Hx.
      apply (in_keys_insert o k (0 + 1) x) in Hx.
      destruct Hx as [-> | Hx]; [exact Hidx|].
      rewrite Forall_forall in Hall. now apply Hall.
    + intros k'. rewrite occurrences_snoc.
      destruct (Z.eqb_spec k k') as [<- | Hne].
      * rewrite (get_insert_same o k (0 + 1) Ek). lia.
      * rewrite get_insert_other by congruence.
        specialize (Hget k'). destruct (JSObject.get o k'); lia.
Qed.

Lemma counts_histogram (intervals : list Z) :
  Forall (fun i => JSObject.is_array_index (quantize i) = true) intervals ->
  counts (histogram intervals) (map quantize intervals).
Proof.
  unfold histogram.
  induction intervals as [| i intervals IH] using rev_ind; intros Hall.
  - split; [constructor | split; [constructor | intros k; reflexivity]].
  - apply Forall_app in Hall. destruct Hall as [Hall Hi].
    inversion Hi; subst.
    rewrite fold_left_app, map_app. simpl.
    apply counts_add_interval; [assumption | now apply IH].
Qed.

(** The [for ... in] loop over an object whose names ascend: either no
    count exceeds the starting [maxCount], or the result is the greatest
    count together with the least name that has it. *)
Lemma most_common_from (o : JSObject.t) :
  StronglySorted Z.lt (JSObject.keys o) ->
  forall m0 b0 : Z,
    let r := fold_left pick o (m0, b0) in
    (r = (m0, b0) /\ Forall (fun e => snd e <= m0) o) \/
    (In (snd r, fst r) o /\ m0 < fst r /\
     Forall (fun e => snd e <= fst r) o /\
     forall k c, In (k, c) o -> c = fst r -> snd r <= k).
Proof.
  unfold JSObject.keys.
  induction o as [| [k1 c1] o IH]; intros Hs m0 b0; simpl.
  - left. split; [reflexivity | constructor].
  - apply StronglySorted_inv in Hs. destruct Hs as [Hs Hall].
    rewrite Forall_forall in Hall.
    destruct (Z.gtb_spec c1 m0) as [Hgt | Hle].
    + destruct (IH Hs c1 k1) as [[Hr Hb] | (Hin & Hlt & Hb & Hmin)].
      * right. rewrite Hr. simpl.
        split; [now left|]. split; [lia|].
        split; [constructor; [simpl; lia | exact Hb]|].
        intros k c [[= <- <-] | Hin] Hc; [lia|].
        specialize (Hall k (in_map fst _ _ Hin)). simpl in Hall. lia.
      * right. split; [now right|]. split; [lia|].
        split; [constructor; [simpl; lia | exact Hb]|].
        intros k c [[= <- <-] | Hin'] Hc; [lia | now apply (Hmin k c)].
    + destruct (IH Hs m0 b0) as [[Hr Hb] | (Hin & Hlt & Hb & Hmin)].
      * left. split; [exact Hr|]. constructor; [simpl; lia | exact Hb].
      * right. split; [now right|]. split; [lia|].
        split; [constructor; [simpl; lia | exact Hb]|].
        intros k c [[= <- <-] | Hin'] Hc; [lia | now apply (Hmin k c)].
Qed.

(** The selected interval of a non-empty interval sequence. *)
Lemma bestInterval_least_most_frequent (intervals : list Z) :
  intervals <> [] ->
  Forall (fun i => JSObject.is_array_index (quantize i) = true) intervals ->
  let best := bestInterval_of intervals in
  0 < bucket_count intervals best /\
  (forall k, bucket_count intervals k <= bucket_count intervals best) /\
  (forall k,
      bucket_count intervals k = bucket_count intervals best -> best <= k).
Proof.
  intros Hne Hidx best.
  destruct (counts_histogram intervals Hidx) as (Hs & _ & Hocc).
  assert (Hget : forall k,
             match JSObject.get (histogram intervals) k with
             | Some c => c = bucket_count intervals k /\ 0 < c
             | None => bucket_count intervals k = 0
             end) by exact Hocc.
  clear Hocc.
  assert (Hsome : exists k c, In (k, c) (histogram intervals) /\ 0 < c).
  { destruct intervals as [| i rest]; [congruence|].
    exists (quantize i). specialize (Hget (quantize i)).
    destruct (JSObject.get (histogram (i :: rest)) (quantize i)) as [c |]
      eqn:E.
    - exists c. split; [now apply get_Some_in | lia].
    - unfold bucket_count, occurrences in Hget. cbn [map] in Hget.
      rewrite count_occ_cons_eq in Hget by reflexivity. lia. }
  unfold best, bestInterval_of, most_common.
  destruct (most_common_from (histogram intervals) Hs 0 0)
    as [[_ Hb] | (Hin & Hlt & Hb & Hmin)].
  - destruct Hsome as (k & c & Hin & Hpos).
    rewrite Forall_forall in Hb. specialize (Hb _ Hin). simpl in Hb. lia.
  - set (r := fold_left pick (histogram intervals) (0, 0)) in *.
    rewrite Forall_forall in Hb.
    pose proof (in_get _ _ _ Hs Hin) as Hbest.
    pose proof (Hget (snd r)) as Hc. rewrite Hbest in Hc.
    destruct Hc as [Hc _].
    split; [lia | split].
    + intros k. specialize (Hget k).
      destruct (JSObject.get (histogram intervals) k) as [c |] eqn:E.
      * specialize (Hb _ (get_Some_in _ _ _ E)). simpl in Hb. lia.
      * lia.
    + intros k Hk. specialize (Hget k).
      destruct (JSObject.get (histogram intervals) k) as [c |] eqn:E.
      * apply (Hmin k c); [now apply get_Some_in | lia].
      * lia.
Qed.

End Histogram.

(** C5 (as the code has it).  For intervals below [2^32 - 100] (bucket names
    are then array indices, which [for ... in] visits in ascending numeric
    order) the bucket selected has the highest count, and among the buckets
    with that count it is the one with the smallest quantized interval,
    wherever in the interval sequence the buckets first occur; the result
    is a function of the input. *)
Theorem tie_goes_to_smallest_interval :
  forall intervals : list Z,
    intervals <> [] ->
    Forall (fun i => 0 <= i < 2 ^ 32 - 100) intervals ->
    let best := Tempo.bestInterval_of intervals in
    0 < Tempo.bucket_count intervals best /\
    (forall k,
        Tempo.bucket_count intervals k <= Tempo.bucket_count intervals best) /\
    (forall k,
        Tempo.bucket_count intervals k = Tempo.bucket_count intervals best ->
        best <= k).
Proof.
  intros intervals Hne Hrange.
  apply bestInterval_least_most_frequent; [exact Hne|].
  apply Forall_impl with (2 := Hrange).
  intros i Hi. now apply quantize_is_array_index.
Qed.

Lemma tie_goes_to_smallest_interval_witness :
  let intervals :=
    [6000; 4000; 6000; 4000; 6000; 4000; 6000; 4000; 6000; 4000] in
  Tempo.bestInterval_of intervals = 4000 /\
  forall k,
    Tempo.bucket_count intervals k = Tempo.bucket_count intervals 4000 ->
    4000 <= k.
Proof.
  intros intervals. split; [reflexivity|].
  apply (tie_goes_to_smallest_interval intervals).
  - discriminate.
  - unfold intervals. repeat (constructor; [simpl; lia|]). constructor.
Defined.

(** * Further properties of the tempo estimator *)

Section PeakGeometry.

Import Tempo.

Variable get : Z -> option Q.
Variables len sr : Z.
Hypothesis sr_nonneg : 0 <= sr.

(** With a non-negative sample rate the position never moves back. *)
Lemma Scanned_bounds (i p : Z) : Scanned get len sr i p -> i <= p < len.
Proof.
  pose proof (skip_positive sr sr_nonneg) as Hskip.
  induction 1 as [i Hi | i j Hi Hs IH]; [lia|].
  unfold next_index, step in *.
  destruct (above_threshold (get i)); lia.
Qed.

Lemma scan_peaks_in_range (fuel : nat) (peaks : list Z) :
  scan_peaks fuel get len sr 0 [] = Some peaks ->
  Forall (fun p => 0 <= p < len) peaks.
Proof.
  intros Hs. apply Forall_forall. intros p Hp.
  apply (scan_peaks_characterised _ _ _ _ _ _ _ Hs p) in Hp.
  destruct Hp as [[] | [Hp _]]. now apply Scanned_bounds.
Qed.

End PeakGeometry.

Section Intervals.

Import Tempo.

Lemma length_intervals_of (peaks : list Z) :
  length (intervals_of peaks) = pred (length peaks).
Proof.
  induction peaks as [| a [| b l] IH]; try reflexivity.
  change (S (length (intervals_of (b :: l))) = S (length l)).
  now rewrite IH.
Qed.

(** The intervals of peaks that are [skip] apart are at least [skip]. *)
Lemma intervals_of_spaced (skip : Z) (peaks : list Z) :
  chain (fun a b => a + skip <= b) peaks ->
  Forall (fun d => skip <= d) (intervals_of peaks).
Proof.
  induction peaks as [| a [| b l] IH]; intros Hc; try constructor.
  - destruct Hc as [Hab _]. lia.
  - apply IH. now destruct Hc.
Qed.

(** Peaks that are [skip] apart span at least [(n - 1) * skip] samples. *)
Lemma spaced_span (skip lo hi : Z) (peaks : list Z) :
  0 <= skip ->
  chain (fun a b => a + skip <= b) peaks ->
  Forall (fun p => lo <= p < hi) peaks ->
  peaks <> [] ->
  lo + (Z.of_nat (length peaks) - 1) * skip < hi.
Proof.
  intros Hskip. revert lo.
  induction peaks as [| a [| b l] IH]; intros lo Hc Hr Hne.
  - congruence.
  - inversion Hr; subst. simpl. lia.
  - destruct Hc as [Hab Hc]. inversion Hr as [| ? ? Ha Hr']; subst.
    assert (Hr'' : Forall (fun p => a + skip <= p < hi) (b :: l)).
    { clear IH Hr Hne. revert b Hab Hc Hr'.
      induction l as [| c l IHl]; intros b Hab Hc Hr'.
      - inversion Hr'; subst. constructor; [lia | constructor].
      - inversion Hr' as [| ? ? Hb Hr2]; subst. destruct Hc as [Hbc Hc].
        constructor; [lia|]. apply IHl; [lia | exact Hc | exact Hr2]. }
    specialize (IH (a + skip) Hc Hr'' ltac:(discriminate)).
    change (length (a :: b :: l)) with (S (length (b :: l))).
    nia.
Qed.

(** [Math.round(interval / 100) * 100] is the multiple of 100 nearest to
    the interval, the upper one at a tie. *)
Lemma quantize_nearest (i : Z) :
  exists q, quantize i = q * 100 /\ i - 50 < quantize i <= i + 50.
Proof.
  exists ((i * 1 * 2 + 100) / 200). rewrite quantize_div.
  split; [reflexivity|].
  pose proof (Z.div_mod (i * 1 * 2 + 100) 200 ltac:(lia)) as Hdm.
  pose proof (Z.mod_pos_bound (i * 1 * 2 + 100) 200 ltac:(lia)) as Hb.
  lia.
Qed.

End Intervals.

(** X1. The peaks of a buffer are indices of the buffer, the intervals
    between consecutive peaks are at least [floor(sampleRate / 4) + 4]
    samples (in particular positive), there is one interval less than there
    are peaks, and [n] peaks need more than [(n - 1) * (floor(sampleRate / 4)
    + 4)] samples. *)
Theorem peaks_are_indices_and_spaced :
  forall (buffer : Tempo.ToneAudioBuffer) (peaks : list Z),
    0 <= Tempo.sampleRate buffer ->
    Tempo.find_peaks buffer = Some peaks ->
    let len := Z.of_nat (length (Tempo.channelData buffer)) in
    let skip := Tempo.sampleRate buffer / 4 + 4 in
    Forall (fun p => 0 <= p < len) peaks /\
    Forall (fun d => skip <= d) (Tempo.intervals_of peaks) /\
    length (Tempo.intervals_of peaks) = pred (length peaks) /\
    (peaks <> [] -> (Z.of_nat (length peaks) - 1) * skip < len).
Proof.
  intros buffer peaks Hsr Hf len skip.
  pose proof Hf as Hscan. unfold Tempo.find_peaks in Hscan.
  assert (Hrange : Forall (fun p => 0 <= p < len) peaks)
    by (apply (scan_peaks_in_range _ _ _ Hsr _ _ Hscan)).
  assert (Hchain : Tempo.chain (fun a b => a + skip <= b) peaks).
  { pose proof (scan_peaks_spaced _ _ _ (length (Tempo.channelData buffer))
                  Hsr 0 [] peaks I (fun a (H : In a []) => match H with end)
                  Hscan) as Hc.
    rewrite floor_quarter in Hc. exact Hc. }
  split; [exact Hrange|].
  split; [now apply intervals_of_spaced|].
  split; [apply length_intervals_of|].
  intros Hne.
  pose proof (spaced_span skip 0 len peaks) as Hspan.
  assert (0 <= skip) by (unfold skip; pose proof (Z.div_pos _ 4 Hsr); lia).
  specialize (Hspan H Hchain Hrange Hne). lia.
Qed.

Lemma peaks_are_indices_and_spaced_witness :
  let buffer := Tempo.mkBuffer [1; 0; 0; 0; 0.7; 0; 0; 0; 0.9; 0]%Q 16 in
  Tempo.find_peaks buffer = Some [0; 8] /\
  Forall (fun d => 16 / 4 + 4 <= d) (Tempo.intervals_of [0; 8]).
Proof.
  intros buffer. split; [reflexivity|].
  apply (peaks_are_indices_and_spaced buffer [0; 8]);
    [simpl; lia | reflexivity].
Defined.

(** X2. A buffer of at most [9 * (floor(sampleRate / 4) + 4)] samples,
    about two and a quarter seconds, cannot hold ten peaks: its estimate
    is 0 whatever it contains. *)
Theorem short_buffer_estimate_is_zero :
  forall buffer : Tempo.ToneAudioBuffer,
    0 <= Tempo.sampleRate buffer ->
    Z.of_nat (length (Tempo.channelData buffer))
    <= 9 * (Tempo.sampleRate buffer / 4 + 4) ->
    Tempo.detectBPM buffer = Some 0%Q.
Proof.
  intros buffer Hsr Hshort.
  destruct (find_peaks_total buffer Hsr) as [peaks Hp].
  rewrite (detectBPM_of_peaks _ _ Hp). f_equal.
  apply few_peaks_zero.
  destruct (Nat.lt_ge_cases (length peaks) 10) as [Hlt | Hge]; [exact Hlt|].
  exfalso.
  pose proof (Z.div_pos _ 4 Hsr ltac:(lia)) as Hq.
  assert (Hne : peaks <> []) by (intros ->; simpl in Hge; lia).
  pose proof (spaced_span (Tempo.sampleRate buffer / 4 + 4) 0
                (Z.of_nat (length (Tempo.channelData buffer))) peaks
                ltac:(lia)) as Hspan.
  pose proof Hp as Hscan. unfold Tempo.find_peaks in Hscan.
  pose proof (scan_peaks_spaced _ _ _ (length (Tempo.channelData buffer))
                Hsr 0 [] peaks I (fun a (H : In a []) => match H with end)
                Hscan) as Hc.
  rewrite floor_quarter in Hc.
  specialize (Hspan Hc (scan_peaks_in_range _ _ _ Hsr _ _ Hscan) Hne).
  nia.
Qed.

Lemma short_buffer_estimate_is_zero_witness :
  Tempo.detectBPM (Tempo.mkBuffer (repeat 1%Q 40) 4) = Some 0%Q.
Proof.
  apply short_buffer_estimate_is_zero; simpl; lia.
Defined.

Section HistogramCounts.

Import Tempo.

Lemma get_app_new (o : JSObject.t) (k v k' : Z) :
  JSObject.get o k = None ->
  JSObject.get (o ++ [(k, v)]) k'
  = if k =? k' then Some v else JSObject.get o k'.
Proof.
  induction o as [| [k1 v1] o IH]; simpl; intros Hno.
  - reflexivity.
  - destruct (Z.eqb_spec k1 k) as [-> | Hne]; [discriminate|].
    destruct (Z.eqb_spec k1 k') as [-> | Hne'].
    + destruct (Z.eqb_spec k k'); [congruence | reflexivity].
    + now apply IH.
Qed.

(** Reading after writing, whatever the kind of key. *)
Lemma get_set (o : JSObject.t) (k v k' : Z) :
  JSObject.get (JSObject.set o k v) k'
  = if k =? k' then Some v else JSObject.get o k'.
Proof.
  unfold JSObject.set.
  destruct (JSObject.get o k) as [c |] eqn:E.
  - destruct (Z.eqb_spec k k') as [<- | Hne].
    + apply (get_update_same o k v c E).
    + apply get_update_other. congruence.
  - destruct (JSObject.is_array_index k).
    + destruct (Z.eqb_spec k k') as [<- | Hne].
      * now apply get_insert_same.
      * apply get_insert_other. congruence.
    + now apply get_app_new.
Qed.

Lemma histogram_get (intervals : list Z) (k : Z) :
  match JSObject.get (histogram intervals) k with
  | Some c => c = bucket_count intervals k /\ 0 < c
  | None => bucket_count intervals k = 0
  end.
Proof.
  unfold histogram, bucket_count. revert k.
  induction intervals as [| i intervals IH] using rev_ind; intros k.
  - reflexivity.
  - rewrite fold_left_app, map_app. cbn [fold_left map].
    unfold add_interval at 1. rewrite get_set, occurrences_snoc.
    destruct (Z.eqb_spec (quantize i) k) as [<- | Hne].
    + specialize (IH (quantize i)).
      destruct (JSObject.get _ (quantize i)); lia.
    + specialize (IH k). destruct (JSObject.get _ k); lia.
Qed.

Lemma in_keys_get (o : JSObject.t) (k c : Z) :
  In (k, c) o -> exists c', JSObject.get o k = Some c'.
Proof.
  induction o as [| [k1 v1] o IH]; simpl; [tauto|].
  intros [[= -> ->] | Hin].
  - rewrite Z.eqb_refl. eauto.
  - destruct (k1 =? k); eauto.
Qed.

(** The loop over the buckets returns its starting pair or an entry. *)
Lemma most_common_entry (o : JSObject.t) (m0 b0 : Z) :
  let r := fold_left pick o (m0, b0) in
  r = (m0, b0) \/ In (snd r, fst r) o.
Proof.
  revert m0 b0. induction o as [| [k1 c1] o IH]; intros m0 b0; simpl.
  - now left.
  - destruct (c1 >? m0).
    + destruct (IH c1 k1) as [-> | Hin]; right; [now left | now right].
    + destruct (IH m0 b0) as [-> | Hin]; [now left | right; now right].
Qed.

(** The selected interval is 0 or the quantized value of an interval. *)
Lemma bestInterval_is_quantized (intervals : list Z) :
  bestInterval_of intervals = 0 \/
  In (bestInterval_of intervals) (map quantize intervals).
Proof.
  unfold bestInterval_of, most_common.
  destruct (most_common_entry (histogram intervals) 0 0) as [-> | Hin].
  - now left.
  - right. destruct (in_keys_get _ _ _ Hin) as [c Hc].
    pose proof (histogram_get intervals
                  (snd (fold_left pick (histogram intervals) (0, 0)))) as Hg.
    rewrite Hc in Hg. destruct Hg as [-> Hpos].
    unfold bucket_count, occurrences in Hpos.
    apply (count_occ_In Z.eq_dec). lia.
Qed.

End HistogramCounts.

(** X3. After the histogram loop, reading a bucket gives the number of
    intervals whose quantized value is that bucket, and [undefined] when
    there is none: no interval is lost or counted twice. *)
Theorem histogram_counts_intervals :
  forall (intervals : list Z) (k : Z),
    JSObject.get (Tempo.histogram intervals) k
    = if Tempo.bucket_count intervals k =? 0 then None
      else Some (Tempo.bucket_count intervals k).
Proof.
  intros intervals k. pose proof (histogram_get intervals k) as H.
  destruct (JSObject.get (Tempo.histogram intervals) k) as [c |].
  - destruct H as [-> Hpos].
    destruct (Z.eqb_spec (Tempo.bucket_count intervals k) 0); [lia|].
    reflexivity.
  - rewrite H. reflexivity.
Qed.

(** X4. Quantization sends an interval to the nearest multiple of 100,
    upwards at a tie: the result is a multiple of 100 within
    [(i - 50, i + 50]], multiples of 100 are fixed, and the operation is
    monotone. *)
Theorem quantize_nearest_hundred :
  forall i j : Z,
    Tempo.quantize i mod 100 = 0 /\
    i - 50 < Tempo.quantize i <= i + 50 /\
    (i mod 100 = 0 -> Tempo.quantize i = i) /\
    (i <= j -> Tempo.quantize i <= Tempo.quantize j).
Proof.
  intros i j.
  destruct (quantize_nearest i) as (q & Hq & Hi).
  destruct (quantize_nearest j) as (r & Hr & Hj).
  split; [rewrite Hq; apply Z.mod_mul; lia|].
  split; [exact Hi|].
  split.
  - intros Hm. apply Z.mod_divide in Hm; [| lia].
    destruct Hm as [m Hm]. lia.
  - intros Hij. lia.
Qed.

Section EstimateBounds.

Import Tempo.

(** The count kept by the loop over the buckets is at least every count. *)
Lemma most_common_max (o : JSObject.t) (m0 b0 : Z) :
  Forall (fun e => snd e <= fst (fold_left pick o (m0, b0))) o /\
  m0 <= fst (fold_left pick o (m0, b0)).
Proof.
  revert m0 b0. induction o as [| [k1 c1] o IH]; intros m0 b0; simpl.
  - split; [constructor | lia].
  - destruct (Z.gtb_spec c1 m0).
    + destruct (IH c1 k1) as [H1 H2].
      split; [constructor; [simpl; lia | exact H1] | lia].
    + destruct (IH m0 b0) as [H1 H2].
      split; [constructor; [simpl; lia | exact H1] | lia].
Qed.

(** With at least one interval, the selected interval is the quantized
    value of one of them. *)
Lemma bestInterval_in_buckets (intervals : list Z) :
  intervals <> [] ->
  In (bestInterval_of intervals) (map quantize intervals).
Proof.
  intros Hne. unfold bestInterval_of, most_common.
  set (o := histogram intervals).
  assert (Hpos : 0 < fst (fold_left pick o (0, 0))).
  { destruct intervals as [| i rest]; [congruence|].
    pose proof (histogram_get (i :: rest) (quantize i)) as Hg. fold o in Hg.
    assert (Hc : 0 < bucket_count (i :: rest) (quantize i)).
    { unfold bucket_count, occurrences. cbn [map].
      rewrite count_occ_cons_eq by reflexivity. lia. }
    destruct (JSObject.get o (quantize i)) as [c |] eqn:E; [| lia].
    destruct (most_common_max o 0 0) as [Hle _].
    rewrite Forall_forall in Hle.
    specialize (Hle _ (get_Some_in _ _ _ E)). simpl in Hle. lia. }
  destruct (most_common_entry o 0 0) as [Heq | Hin].
  - rewrite Heq in Hpos. simpl in Hpos. lia.
  - destruct (in_keys_get _ _ _ Hin) as [c Hc].
    pose proof (histogram_get intervals (snd (fold_left pick o (0, 0))))
      as Hg.
    fold o in Hg. rewrite Hc in Hg. destruct Hg as [-> Hg].
    unfold bucket_count, occurrences in Hg.
    apply (count_occ_In Z.eq_dec). lia.
Qed.

Lemma Zdiv_Q_lt (n d c : Z) :
  0 < d -> n < c * d -> (inject_Z n / inject_Z d < inject_Z c)%Q.
Proof.
  intros Hd Hn. apply Qlt_shift_div_r.
  - change 0%Q with (inject_Z 0). now rewrite <- Zlt_Qlt.
  - now rewrite <- inject_Z_mult, <- Zlt_Qlt.
Qed.

Lemma Zdiv_Q_pos (n d : Z) :
  0 < n -> 0 < d -> (0 < inject_Z n / inject_Z d)%Q.
Proof.
  intros Hn Hd. apply Qlt_shift_div_l.
  - change 0%Q with (inject_Z 0). now rewrite <- Zlt_Qlt.
  - rewrite Qmult_0_l. change 0%Q with (inject_Z 0). now rewrite <- Zlt_Qlt.
Qed.

(** At 8 kHz and above, peaks that are a quarter of a second apart give a
    raw value below 62, hence below 70: the doubled value is returned. *)
Lemma bpm_of_peaks_bounded (sr : Z) (peaks : list Z) :
  8000 <= sr ->
  Forall (fun d => sr / 4 + 4 <= d) (intervals_of peaks) ->
  ((length peaks < 10)%nat /\ bpm_of_peaks sr peaks = 0%Q) \/
  ((10 <= length peaks)%nat /\
   (0 < bpm_of_peaks sr peaks)%Q /\ (bpm_of_peaks sr peaks < 124)%Q /\
   let best := bestInterval_of (intervals_of peaks) in
   let raw := (inject_Z (60 * sr) / inject_Z (best * step))%Q in
   0 < best /\ (0 < raw)%Q /\ (raw < 62)%Q /\
   bpm_of_peaks sr peaks = (raw * 2)%Q).
Proof.
  intros Hsr Hall. unfold bpm_of_peaks.
  destruct (Z.ltb_spec (Z.of_nat (length peaks)) 10) as [Hfew | Hmany].
  - left. split; [lia | reflexivity].
  - right. split; [lia|].
    assert (Hne : intervals_of peaks <> []).
    { intros E. pose proof (length_intervals_of peaks) as Hl.
      rewrite E in Hl. simpl in Hl. lia. }
    pose proof (bestInterval_in_buckets _ Hne) as Hin.
    set (best := bestInterval_of (intervals_of peaks)) in *.
    apply in_map_iff in Hin. destruct Hin as (d & Hd & Hind).
    rewrite Forall_forall in Hall. specialize (Hall d Hind).
    destruct (quantize_nearest d) as (_ & _ & Hq).
    pose proof (Z.mul_div_le sr 4 ltac:(lia)) as Hlow.
    pose proof (Z.mul_succ_div_gt sr 4 ltac:(lia)) as Hup.
    assert (Hbest : 0 < best) by lia.
    destruct (Z.eqb_spec best 0) as [H0 | _]; [lia|].
    assert (Hlt70 : (inject_Z (60 * sr) / inject_Z (best * step) < 70)%Q).
    { apply (Zdiv_Q_lt _ _ 70); unfold step; lia. }
    assert (Hpos : (0 < inject_Z (60 * sr) / inject_Z (best * step))%Q).
    { apply Zdiv_Q_pos; unfold step; lia. }
    assert (Hlt62 : (inject_Z (60 * sr) / inject_Z (best * step)
                     < inject_Z 62)%Q).
    { apply Zdiv_Q_lt; unfold step; lia. }
    apply ltb_true_iff in Hlt70. rewrite Hlt70.
    split; [| split; [| split; [| split; [| split]]]].
    + apply Qmult_lt_0_compat; [exact Hpos | reflexivity].
    + apply Qlt_le_trans with (y := (inject_Z 62 * 2)%Q);
        [| apply Qle_refl].
      apply Qmult_lt_compat_r; [reflexivity | exact Hlt62].
    + exact Hbest.
    + exact Hpos.
    + exact Hlt62.
    + reflexivity.
Qed.

End EstimateBounds.

(** X5. At a sample rate of 8000 Hz or more the estimate is 0 exactly when
    fewer than ten peaks are found, and otherwise lies strictly between 0
    and 124: peaks are at least a quarter of a second apart and the interval
    is multiplied by the stride, so the selected interval is positive, the
    raw value [60 * sampleRate / (bestInterval * step)] lies strictly
    between 0 and 62, and it is always the doubling branch that returns:
    the estimate is twice the raw value, unrounded. *)
Theorem estimate_range_at_8kHz :
  forall buffer : Tempo.ToneAudioBuffer,
    8000 <= Tempo.sampleRate buffer ->
    exists (peaks : list Z) (bpm : Q),
      Tempo.find_peaks buffer = Some peaks /\
      Tempo.detectBPM buffer = Some bpm /\
      (((length peaks < 10)%nat /\ bpm = 0%Q) \/
       ((10 <= length peaks)%nat /\ (0 < bpm)%Q /\ (bpm < 124)%Q /\
        let best := Tempo.bestInterval_of (Tempo.intervals_of peaks) in
        let raw := (inject_Z (60 * Tempo.sampleRate buffer)
                    / inject_Z (best * Tempo.step))%Q in
        0 < best /\ (0 < raw)%Q /\ (raw < 62)%Q /\
        bpm = (raw * 2)%Q)).
Proof.
  intros buffer Hsr.
  assert (Hsr0 : 0 <= Tempo.sampleRate buffer) by lia.
  destruct (find_peaks_total buffer Hsr0) as [peaks Hp].
  exists peaks, (Tempo.bpm_of_peaks (Tempo.sampleRate buffer) peaks).
  split; [exact Hp|].
  split; [now apply detectBPM_of_peaks|].
  apply bpm_of_peaks_bounded; [exact Hsr|].
  pose proof Hp as Hscan. unfold Tempo.find_peaks in Hscan.
  pose proof (scan_peaks_spaced _ _ _ (length (Tempo.channelData buffer))
                Hsr0 0 [] peaks I (fun a (H : In a []) => match H with end)
                Hscan) as Hc.
  rewrite floor_quarter in Hc. now apply intervals_of_spaced.
Qed.

Lemma estimate_range_at_8kHz_witness :
  exists (peaks : list Z) (bpm : Q),
    Tempo.find_peaks Tempo.clicks_8k = Some peaks /\
    Tempo.detectBPM Tempo.clicks_8k = Some bpm /\
    (((length peaks < 10)%nat /\ bpm = 0%Q) \/
     ((10 <= length peaks)%nat /\ (0 < bpm)%Q /\ (bpm < 124)%Q /\
      let best := Tempo.bestInterval_of (Tempo.intervals_of peaks) in
      let raw := (inject_Z (60 * Tempo.sampleRate Tempo.clicks_8k)
                  / inject_Z (best * Tempo.step))%Q in
      0 < best /\ (0 < raw)%Q /\ (raw < 62)%Q /\
      bpm = (raw * 2)%Q)).
Proof.
  apply (estimate_range_at_8kHz Tempo.clicks_8k).
  cbn [Tempo.sampleRate Tempo.clicks_8k]. lia.
Defined.

Section Loudness.

Import Tempo.

Lemma scan_peaks_same_mask (get1 get2 : Z -> option Q) (len sr : Z)
      (fuel : nat) :
  (forall j, above_threshold (get1 j) = above_threshold (get2 j)) ->
  forall (i : Z) (peaks : list Z),
    scan_peaks fuel get1 len sr i peaks = scan_peaks fuel get2 len sr i peaks.
Proof.
  intros Hm. induction fuel as [| fuel IH]; intros i peaks;
    cbn [scan_peaks]; [reflexivity|].
  rewrite Hm. destruct (i <? len); [| reflexivity].
  destruct (above_threshold (get2 i)); apply IH.
Qed.

Lemma same_mask_nth (d1 d2 : list Q) :
  Forall2 (fun x y => (threshold < x)%Q <-> (threshold < y)%Q) d1 d2 ->
  forall n,
    above_threshold (nth_error d1 n) = above_threshold (nth_error d2 n).
Proof.
  induction 1 as [| x y d1 d2 Hxy _ IH]; intros [| n]; simpl; auto.
  destruct (Num.gtb x threshold) eqn:Ex, (Num.gtb y threshold) eqn:Ey;
    try reflexivity.
  - apply gtb_true_iff, Hxy, gtb_true_iff in Ex. congruence.
  - apply gtb_true_iff, Hxy, gtb_true_iff in Ey. congruence.
Qed.

End Loudness.

(** X6. The estimate depends on the samples only through the positions at
    which they exceed the threshold: two buffers of the same sample rate
    whose samples are above 0.6 at the same indices get the same estimate,
    however loud or quiet they are otherwise. *)
Theorem estimate_depends_on_threshold_crossings :
  forall (d1 d2 : list Q) (sr : Z),
    Forall2
      (fun x y => (Tempo.threshold < x)%Q <-> (Tempo.threshold < y)%Q)
      d1 d2 ->
    Tempo.detectBPM (Tempo.mkBuffer d1 sr)
    = Tempo.detectBPM (Tempo.mkBuffer d2 sr).
Proof.
  intros d1 d2 sr H.
  unfold Tempo.detectBPM, Tempo.find_peaks.
  cbn [Tempo.channelData Tempo.sampleRate].
  rewrite (Forall2_length H).
  rewrite (scan_peaks_same_mask (Tempo.sample_at d1) (Tempo.sample_at d2)).
  - reflexivity.
  - intros j. unfold Tempo.sample_at.
    destruct (j <? 0); [reflexivity | now apply same_mask_nth].
Qed.

Lemma estimate_depends_on_threshold_crossings_witness :
  Tempo.detectBPM (Tempo.mkBuffer [1; 0; -1; 0.61]%Q 44100)
  = Tempo.detectBPM (Tempo.mkBuffer [0.7; 0.6; 0.5; 100]%Q 44100).
Proof.
  apply estimate_depends_on_threshold_crossings.
  repeat (constructor; [split; intros H; try reflexivity; discriminate H|]).
  constructor.
Defined.

(** * Further properties of the decks and the master tempo *)

Section DeckTransport.

Import AudioEngine.

Lemma sync_twice (b1 b2 : Q) (d : Deck.t) :
  (0 < b2)%Q ->
  sync_if_synced b2 (sync_if_synced b1 d) = sync_if_synced b2 d.
Proof.
  intros Hb2. apply gtb_true_iff in Hb2.
  destruct d as [playing bpm rate synced started prate events loaded].
  unfold sync_if_synced, Deck.syncToMaster, Deck.setRate. cbn.
  destruct synced; cbn; [| reflexivity].
  destruct (Num.gtb bpm 0) eqn:Eb; cbn.
  - destruct (Num.gtb b1 0); cbn; rewrite ?Eb, Hb2; reflexivity.
  - rewrite Eb. reflexivity.
Qed.

Lemma sync_idempotent (b : Q) (d : Deck.t) :
  sync_if_synced b (sync_if_synced b d) = sync_if_synced b d.
Proof.
  destruct d as [playing bpm rate synced started prate events loaded].
  unfold sync_if_synced, Deck.syncToMaster, Deck.setRate. cbn.
  destruct synced; cbn; [| reflexivity].
  destruct (Num.gtb bpm 0) eqn:Eb; cbn.
  - destruct (Num.gtb b 0) eqn:E; cbn; rewrite ?Eb, ?E; reflexivity.
  - rewrite Eb. reflexivity.
Qed.

End DeckTransport.

(** X7. [toggleSync] flips the flag and keeps the detected tempo and the
    transport.  Switching sync off always sets the rate to 1, so switching
    sync on and off again leaves the deck at rate 1, not at the rate it had
    been given by hand before. *)
Theorem toggleSync_off_resets_rate :
  forall (m : Q) (d : Deck.t),
    let d1 := Deck.toggleSync m d in
    let d2 := Deck.toggleSync m d1 in
    Deck.isSynced d1 = negb (Deck.isSynced d) /\
    Deck.bpm d1 = Deck.bpm d /\
    Deck.isPlaying d1 = Deck.isPlaying d /\
    (Deck.isSynced d = true -> Deck.playbackRate d1 = 1%Q) /\
    (Deck.isSynced d = false ->
     Deck.isSynced d2 = false /\ Deck.playbackRate d2 = 1%Q).
Proof.
  intros m d.
  destruct d as [playing bpm rate synced started prate events loaded].
  unfold Deck.toggleSync, Deck.syncToMaster, Deck.setRate,
    Deck.set_isSynced.
  destruct synced; cbn.
  - repeat split; try reflexivity; congruence.
  - destruct (Num.gtb bpm 0 && Num.gtb m 0); cbn;
      repeat split; try reflexivity; congruence.
Qed.

(** X8. Of two master-tempo changes in a row only the last one counts when
    it is positive, and repeating a change does nothing more. *)
Theorem setMasterBpm_last_change_wins :
  (forall (b1 b2 : Q) (e : AudioEngine.t),
      (0 < b2)%Q ->
      AudioEngine.setMasterBpm b2 (AudioEngine.setMasterBpm b1 e)
      = AudioEngine.setMasterBpm b2 e) /\
  (forall (b : Q) (e : AudioEngine.t),
      AudioEngine.setMasterBpm b (AudioEngine.setMasterBpm b e)
      = AudioEngine.setMasterBpm b e).
Proof.
  split.
  - intros b1 b2 e Hb2. unfold AudioEngine.setMasterBpm. cbn.
    now rewrite !sync_twice.
  - intros b e. unfold AudioEngine.setMasterBpm. cbn.
    now rewrite !sync_idempotent.
Qed.

Lemma setMasterBpm_last_change_wins_witness :
  AudioEngine.setMasterBpm 128
    (AudioEngine.setMasterBpm 90
       (AudioEngine.toggleSync AudioEngine.A
          (AudioEngine.loaded_with AudioEngine.A 100 AudioEngine.init)))
  = AudioEngine.setMasterBpm 128
      (AudioEngine.toggleSync AudioEngine.A
         (AudioEngine.loaded_with AudioEngine.A 100 AudioEngine.init)).
Proof.
  apply (proj1 setMasterBpm_last_change_wins). reflexivity.
Defined.

(** X9. [setMasterBpm] stores any number it is given.  It never changes a
    deck's detected tempo, sync flag, transport or event log, and it leaves
    a deck that is not synced untouched; with a tempo that is not positive
    it leaves both decks entirely as they were. *)
Theorem setMasterBpm_frame :
  forall (b : Q) (e : AudioEngine.t) (id : AudioEngine.DeckId),
    let e' := AudioEngine.setMasterBpm b e in
    let d := AudioEngine.deck id e in
    let d' := AudioEngine.deck id e' in
    AudioEngine.masterBpm e' = b /\
    Deck.bpm d' = Deck.bpm d /\
    Deck.isSynced d' = Deck.isSynced d /\
    Deck.isPlaying d' = Deck.isPlaying d /\
    Deck.loadedEvents d' = Deck.loadedEvents d /\
    (Deck.isSynced d = false -> d' = d) /\
    (~ (0 < b)%Q -> d' = d).
Proof.
  intros b e id e' d d'. subst e' d d'.
  rewrite deck_setMasterBpm.
  split; [reflexivity|].
  destruct (AudioEngine.deck id e)
    as [playing bpm rate synced started prate events loaded].
  unfold AudioEngine.sync_if_synced, Deck.syncToMaster, Deck.setRate. cbn.
  destruct synced; cbn.
  - destruct (Num.gtb bpm 0) eqn:Eb; cbn;
      [destruct (Num.gtb b 0) eqn:E; cbn |];
      repeat split; try reflexivity; try discriminate.
    intros Hn. apply gtb_true_iff in E. contradiction.
  - repeat split; reflexivity.
Qed.

(** X10. [playPause] keeps the detected tempo, the sync flag and the
    loaded buffer.  On a started player it stops the player and clears
    [isPlaying], keeping the rate, and does not throw.  On a stopped player
    it first syncs: a deck that is not synced keeps its rate, a synced deck
    whose tempo is known gets [masterBpm / bpm] under a positive master
    tempo.  Then, with a buffer loaded, the player is started and
    [isPlaying] set; with no buffer loaded [player.start()] throws and
    [isPlaying] stays as it was. *)
Theorem playPause_transport :
  forall (state_after_throw : bool) (m : Q) (d : Deck.t),
    let d' := Deck.playPause state_after_throw m d in
    Deck.bpm d' = Deck.bpm d /\
    Deck.isSynced d' = Deck.isSynced d /\
    Deck.player_loaded d' = Deck.player_loaded d /\
    (Deck.player_started d = true ->
     Deck.player_started d' = false /\
     Deck.isPlaying d' = false /\
     Deck.playbackRate d' = Deck.playbackRate d /\
     Deck.playPause_throws d = false) /\
    (Deck.player_started d = false ->
     (Deck.isSynced d = false ->
      Deck.playbackRate d' = Deck.playbackRate d) /\
     (Deck.isSynced d = true -> (0 < Deck.bpm d)%Q -> (0 < m)%Q ->
      Deck.playbackRate d' = (m / Deck.bpm d)%Q) /\
     (Deck.player_loaded d = true ->
      Deck.player_started d' = true /\
      Deck.isPlaying d' = true /\
      Deck.playPause_throws d = false) /\
     (Deck.player_loaded d = false ->
      Deck.isPlaying d' = Deck.isPlaying d /\
      Deck.player_started d' = state_after_throw /\
      Deck.playPause_throws d = true)).
Proof.
  intros st m d.
  destruct d as [playing bpm rate synced started prate events loaded].
  unfold Deck.playPause, Deck.playPause_throws, Deck.start_throws,
    Deck.syncToMaster, Deck.setRate, Deck.set_transport,
    Deck.set_player_started.
  cbn.
  destruct started; cbn.
  - repeat split; try reflexivity; congruence.
  - destruct synced; cbn.
    + destruct (Num.gtb bpm 0) eqn:Eb; cbn;
        [destruct (Num.gtb m 0) eqn:Em; cbn |];
        destruct loaded; cbn;
        repeat split; try reflexivity; try congruence;
        intros _ Hb Hm; apply gtb_true_iff in Hb; apply gtb_true_iff in Hm;
        congruence.
    + destruct loaded; cbn; repeat split; try reflexivity; congruence.
Qed.

(** A deck that has never loaded a track does not start; after a load it
    does. *)
Lemma playPause_transport_witness :
  Deck.isPlaying (Deck.playPause true 120 Deck.init) = false /\
  Deck.playPause_throws Deck.init = true /\
  Deck.isPlaying (Deck.playPause true 120 (Deck.set_loaded Deck.init))
  = true.
Proof.
  destruct (playPause_transport true 120 Deck.init)
    as (_ & _ & _ & _ & H).
  destruct (H eq_refl) as (_ & _ & _ & Hno).
  destruct (Hno eq_refl) as (H1 & _ & H2).
  destruct (playPause_transport true 120 (Deck.set_loaded Deck.init))
    as (_ & _ & _ & _ & K).
  destruct (K eq_refl) as (_ & _ & Hyes & _).
  destruct (Hyes eq_refl) as (_ & K1 & _).
  split; [exact H1 | split; [exact H2 | exact K1]].
Defined.

Section LoadTrack.

Import AudioEngine.

Lemma deck_set_deck_other (id id' : DeckId) (d : Deck.t) (e : t) :
  id <> id' -> deck id' (set_deck id d e) = deck id' e.
Proof. destruct id, id'; intros H; try reflexivity; congruence. Qed.

(** What a broadcast of the master tempo keeps of a deck. *)
Lemma setMasterBpm_frame_deck (m : Q) (d : Deck.t) :
  Deck.bpm (sync_if_synced m d) = Deck.bpm d /\
  Deck.loadedEvents (sync_if_synced m d) = Deck.loadedEvents d /\
  Deck.isSynced (sync_if_synced m d) = Deck.isSynced d /\
  Deck.isPlaying (sync_if_synced m d) = Deck.isPlaying d.
Proof.
  destruct d as [playing bpm rate synced started prate events loaded].
  unfold sync_if_synced, Deck.syncToMaster, Deck.setRate. cbn.
  destruct synced; cbn; [| auto].
  destruct (Num.gtb bpm 0 && Num.gtb m 0); cbn; auto.
Qed.

Lemma Qdiv_pos (a b : Q) : (0 < a)%Q -> (0 < b)%Q -> (0 < a / b)%Q.
Proof.
  intros Ha Hb. apply Qlt_shift_div_l; [exact Hb|]. now rewrite Qmult_0_l.
Qed.

End LoadTrack.

(** X11. A load that fails leaves the engine as it was and dispatches
    nothing.  A load that completes stores the estimate in the deck,
    dispatches exactly one ['loaded'] event carrying that estimate, and
    touches neither the deck's sync flag nor its transport, nor the other
    deck's tempo, flag, transport or events. *)
Theorem loadTrack_events_and_frame :
  (forall (id : AudioEngine.DeckId) (e : AudioEngine.t),
      AudioEngine.loadTrack id None e = Some e) /\
  (forall (id other : AudioEngine.DeckId) (buffer : Tempo.ToneAudioBuffer)
          (b : Q) (e : AudioEngine.t),
      Tempo.detectBPM buffer = Some b ->
      id <> other ->
      exists e',
        AudioEngine.loadTrack id (Some buffer) e = Some e' /\
        let d := AudioEngine.deck id e in
        let d' := AudioEngine.deck id e' in
        let o := AudioEngine.deck other e in
        let o' := AudioEngine.deck other e' in
        Deck.bpm d' = b /\
        Deck.loadedEvents d' = b :: Deck.loadedEvents d /\
        Deck.isSynced d' = Deck.isSynced d /\
        Deck.isPlaying d' = Deck.isPlaying d /\
        Deck.bpm o' = Deck.bpm o /\
        Deck.isSynced o' = Deck.isSynced o /\
        Deck.isPlaying o' = Deck.isPlaying o /\
        Deck.loadedEvents o' = Deck.loadedEvents o).
Proof.
  split; [reflexivity|].
  intros id other buffer b e Hd Hne.
  exists (AudioEngine.loaded_with id b e).
  unfold AudioEngine.loadTrack. rewrite Hd. split; [reflexivity|].
  unfold AudioEngine.loaded_with.
  destruct (Num.eqb _ 120 && Num.gtb b 0).
  - cbv zeta. rewrite deck_set_deck_same.
    rewrite (deck_set_deck_other id other) by exact Hne.
    rewrite !deck_setMasterBpm, deck_set_deck_same.
    rewrite (deck_set_deck_other id other) by exact Hne.
    destruct (setMasterBpm_frame_deck b
                (Deck.set_bpm b (Deck.set_loaded (AudioEngine.deck id e))))
      as (H1 & H2 & H3 & H4).
    destruct (setMasterBpm_frame_deck b (AudioEngine.deck other e))
      as (K1 & K2 & K3 & K4).
    cbn. rewrite H1, H2, H3, H4, K1, K2, K3, K4. cbn.
    repeat split; reflexivity.
  - cbv zeta. rewrite !deck_set_deck_same.
    rewrite !(deck_set_deck_other id other) by exact Hne.
    cbn. repeat split; reflexivity.
Qed.

Lemma loadTrack_events_and_frame_witness :
  exists (b : Q) (e' : AudioEngine.t),
    AudioEngine.loadTrack AudioEngine.A (Some Tempo.clicks_1280)
      AudioEngine.init = Some e' /\
    Deck.loadedEvents (AudioEngine.deck AudioEngine.A e') = [b] /\
    Deck.loadedEvents (AudioEngine.deck AudioEngine.B e') = [].
Proof.
  pose proof (detectBPM_of_peaks _ _ find_peaks_clicks_1280) as Hd.
  destruct (proj2 loadTrack_events_and_frame AudioEngine.A AudioEngine.B
              Tempo.clicks_1280 _ AudioEngine.init Hd ltac:(discriminate))
    as (e' & Hl & _ & Hev & _ & _ & _ & _ & _ & Ho).
  eexists. exists e'. split; [exact Hl|]. split; [exact Hev | exact Ho].
Defined.

(** X12. A load does not by itself bring a synced deck back to the master
    tempo.  If the master tempo is not 120 (or the estimate is not
    positive), the deck keeps the rate it had, although its tempo has
    changed.  If the load makes the master tempo adopt a positive estimate,
    the loading deck, when synced, gets the rate [b / b], that is 1, and
    the other deck, when synced with a known tempo, gets [b / bpm]. *)
Theorem loadTrack_rate_of_synced_decks :
  forall (id other : AudioEngine.DeckId) (b : Q) (e : AudioEngine.t),
    id <> other ->
    let e' := AudioEngine.loaded_with id b e in
    let d := AudioEngine.deck id e in
    let d' := AudioEngine.deck id e' in
    let o := AudioEngine.deck other e in
    let o' := AudioEngine.deck other e' in
    (~ (AudioEngine.masterBpm e == 120)%Q \/ ~ (0 < b)%Q ->
     Deck.playbackRate d' = Deck.playbackRate d /\ o' = o) /\
    ((AudioEngine.masterBpm e == 120)%Q -> (0 < b)%Q ->
     (Deck.isSynced d = true ->
      Deck.playbackRate d' = (b / b)%Q /\ (Deck.playbackRate d' == 1)%Q) /\
     (Deck.isSynced o = true -> (0 < Deck.bpm o)%Q ->
      Deck.playbackRate o' = (b / Deck.bpm o)%Q)).
Proof.
  intros id other b e Hne e' d d' o o'. subst e' d d' o o'.
  unfold AudioEngine.loaded_with. split.
  - intros H.
    replace (Num.eqb (AudioEngine.masterBpm
                        (AudioEngine.set_deck id
                           (Deck.set_bpm b (Deck.set_loaded (AudioEngine.deck id e))) e)) 120
             && Num.gtb b 0) with false.
    + cbv zeta. rewrite !deck_set_deck_same.
      rewrite !(deck_set_deck_other id other) by exact Hne.
      split; reflexivity.
    + symmetry. rewrite masterBpm_set_deck. apply andb_false_iff.
      destruct H as [H | H].
      * left. now apply eqb_false_iff.
      * right. apply not_true_iff_false. now rewrite gtb_true_iff.
  - intros Hm Hb.
    rewrite masterBpm_set_deck.
    rewrite (proj2 (eqb_true_iff _ _) Hm), (proj2 (gtb_true_iff _ _) Hb).
    cbv zeta. cbn [andb]. rewrite deck_set_deck_same.
    rewrite (deck_set_deck_other id other) by exact Hne.
    rewrite !deck_setMasterBpm, deck_set_deck_same.
    rewrite (deck_set_deck_other id other) by exact Hne.
    split.
    + intros Hs. unfold AudioEngine.sync_if_synced. cbn [Deck.set_bpm
        Deck.set_loaded Deck.isSynced]. rewrite Hs.
      rewrite syncToMaster_rate by (cbn; assumption).
      cbn. split; [reflexivity|].
      apply Qmult_inv_r. intros E. rewrite E in Hb. discriminate Hb.
    + intros Hs Hbo. unfold AudioEngine.sync_if_synced. rewrite Hs.
      now rewrite syncToMaster_rate.
Qed.

Lemma loadTrack_rate_of_synced_decks_witness :
  let e := AudioEngine.toggleSync AudioEngine.A
             (AudioEngine.setMasterBpm 130
                (AudioEngine.loaded_with AudioEngine.A 100
                   AudioEngine.init)) in
  Deck.playbackRate (AudioEngine.deck AudioEngine.A e) = (130 / 100)%Q /\
  Deck.playbackRate
    (AudioEngine.deck AudioEngine.A
       (AudioEngine.loaded_with AudioEngine.A 90 e))
  = (130 / 100)%Q.
Proof.
  intros e. split; [reflexivity|].
  apply (proj1 (loadTrack_rate_of_synced_decks AudioEngine.A AudioEngine.B
                  90 e ltac:(discriminate))).
  left. discriminate.
Defined.

Section EngineInvariant.

Import AudioEngine.

Lemma sound_sync (m : Q) (d : Deck.t) : DeckControls.sound d -> DeckControls.sound (sync_if_synced m d).
Proof.
  unfold DeckControls.sound, sync_if_synced, Deck.syncToMaster.
  destruct (Deck.isSynced d); [| auto].
  destruct (Num.gtb (Deck.bpm d) 0 && Num.gtb m 0) eqn:E; [| auto].
  apply andb_true_iff in E. destruct E as [Eb Em].
  apply gtb_true_iff in Eb. apply gtb_true_iff in Em.
  intros _. cbn. split; [now apply Qdiv_pos | reflexivity].
Qed.

Lemma sound_toggleSync (m : Q) (d : Deck.t) :
  DeckControls.sound d -> DeckControls.sound (Deck.toggleSync m d).
Proof.
  unfold DeckControls.sound, Deck.toggleSync, Deck.syncToMaster. cbn.
  destruct (negb (Deck.isSynced d)); cbn.
  - destruct (Num.gtb (Deck.bpm d) 0 && Num.gtb m 0) eqn:E; [| auto].
    apply andb_true_iff in E. destruct E as [Eb Em].
    apply gtb_true_iff in Eb. apply gtb_true_iff in Em.
    intros _. cbn. split; [now apply Qdiv_pos | reflexivity].
  - intros _. split; reflexivity.
Qed.

Lemma sound_playPause (st : bool) (m : Q) (d : Deck.t) :
  DeckControls.sound d -> DeckControls.sound (Deck.playPause st m d).
Proof.
  intros H. unfold Deck.playPause.
  destruct (Deck.player_started d); [exact H|].
  assert (H1 : DeckControls.sound
                 (if Deck.isSynced d then Deck.syncToMaster m d else d))
    by (change (DeckControls.sound (sync_if_synced m d));
        now apply sound_sync).
  destruct (Deck.start_throws _); exact H1.
Qed.

Lemma sound_step (op : Op) (e : t) :
  DeckControls.positive_arguments op ->
  (forall id, DeckControls.sound (deck id e)) ->
  forall id, DeckControls.sound (deck id (step op e)).
Proof.
  intros Hop He id.
  pose proof (He A) as HA. pose proof (He B) as HB. cbn [deck] in HA, HB.
  destruct op as [b | i | i st | i r | i b]; simpl in *.
  - rewrite deck_setMasterBpm. apply sound_sync, He.
  - unfold toggleSync. destruct id, i; cbn [deck set_deck deckA deckB];
      try apply sound_toggleSync; assumption.
  - unfold playPause. destruct id, i; cbn [deck set_deck deckA deckB];
      try apply sound_playPause; assumption.
  - unfold setRate. destruct id, i; cbn [deck set_deck deckA deckB];
      try assumption; split; try exact Hop; reflexivity.
  - unfold loaded_with.
    destruct (Num.eqb _ 120 && Num.gtb b 0); cbv zeta.
    + destruct id, i;
        cbn [deck set_deck deckA deckB setMasterBpm masterBpm];
        try apply sound_sync; assumption.
    + destruct id, i; cbn [deck set_deck deckA deckB]; assumption.
Qed.

Lemma sound_run (ops : list Op) :
  Forall DeckControls.positive_arguments ops ->
  forall e, (forall id, DeckControls.sound (deck id e)) ->
  forall id, DeckControls.sound (deck id (run ops e)).
Proof.
  unfold run. induction ops as [| op ops IH]; intros Hall e He; simpl.
  - exact He.
  - inversion Hall; subst. apply IH; [assumption|].
    now apply sound_step.
Qed.

Lemma sound_init (id : DeckId) : DeckControls.sound (deck id init).
Proof. destruct id; split; reflexivity. Qed.

(** The playing rate of every deck after a run from the initial engine. *)
Lemma run_rates (ops : list Op) (id : DeckId) :
  Forall DeckControls.positive_arguments ops ->
  (0 < Deck.playbackRate (deck id (run ops init)))%Q /\
  Deck.player_playbackRate (deck id (run ops init))
  = Deck.playbackRate (deck id (run ops init)).
Proof.
  intros Hall. apply (sound_run ops Hall init sound_init id).
Qed.

End EngineInvariant.

(** X13. In every state reached from the initial engine by operations
    whose tempo and rate arguments are positive, each deck's playback rate
    is positive and is the rate its player has been given. *)
Theorem playbackRate_positive_and_applied :
  forall (ops : list AudioEngine.Op) (id : AudioEngine.DeckId),
    Forall DeckControls.positive_arguments ops ->
    let d := AudioEngine.deck id (AudioEngine.run ops AudioEngine.init) in
    (0 < Deck.playbackRate d)%Q /\
    Deck.player_playbackRate d = Deck.playbackRate d.
Proof.
  intros ops id Hall. now apply run_rates.
Qed.

Lemma playbackRate_positive_and_applied_witness :
  (0 < Deck.playbackRate
         (AudioEngine.deck AudioEngine.A
            (AudioEngine.run
               [AudioEngine.Loaded AudioEngine.A 100;
                AudioEngine.ToggleSync AudioEngine.A;
                AudioEngine.SetMasterBpm 140;
                AudioEngine.PlayPause AudioEngine.A true]
               AudioEngine.init)))%Q.
Proof.
  apply (playbackRate_positive_and_applied
           [AudioEngine.Loaded AudioEngine.A 100;
            AudioEngine.ToggleSync AudioEngine.A;
            AudioEngine.SetMasterBpm 140;
            AudioEngine.PlayPause AudioEngine.A true] AudioEngine.A).
  repeat constructor.
Defined.

(** * Further properties of the voice unit *)

Ltac voice_unfold :=
  unfold VoiceControls.step, VoiceControls.setPlaybackRate,
    VoiceControls.toggleLoop, Voice.step, Voice.setPreset,
    Voice.startRecording, Voice.startMic, Voice.stopRecording, Voice.play,
    Voice.stop, Voice.loadFile, Voice.dispatch_state_change,
    Voice.set_isRecording, Voice.set_player_loaded, Voice.set_playing,
    Voice.set_mic_started in *.

Ltac voice_split s :=
  destruct s as [rec playing preset f mic loaded started loop n];
  voice_unfold; cbn in *;
  repeat match goal with
         | b : bool |- _ => destruct b
         | |- context [?a >? ?b] => destruct (a >? b)
         end;
  cbn in *.

(** X14. Every operation of the voice engine dispatches at most one
    ['state-change'], and an operation that dispatches none has changed
    none of [isRecording], [isPlaying], [currentPreset] and the loaded
    state of the player: a listener never misses a change of these. *)
Theorem voice_changes_are_notified :
  forall (op : VoiceControls.Op) (s : Voice.t),
    let s' := VoiceControls.step op s in
    (Voice.notifications s' = Voice.notifications s \/
     Voice.notifications s' = S (Voice.notifications s)) /\
    (Voice.notifications s' = Voice.notifications s ->
     Voice.isRecording s' = Voice.isRecording s /\
     Voice.isPlaying s' = Voice.isPlaying s /\
     Voice.currentPreset s' = Voice.currentPreset s /\
     Voice.player_loaded s' = Voice.player_loaded s).
Proof.
  intros op s.
  destruct op as [[ok | [| size ok] | | | ok] | index | rate | lp];
    voice_split s;
    (split; [auto | intros H; try (exfalso; lia); auto]).
Qed.

(** X15. [stopRecording] during a recording always ends it and dispatches
    exactly one ['state-change'], whether the recorder fails, the blob is
    empty or the player cannot load it; [isPlaying] is kept, and the player
    is loaded afterwards exactly when it was before or a non-empty blob has
    been loaded. *)
Theorem stopRecording_always_ends_recording :
  forall (out : Voice.StopOutcome) (s : Voice.t),
    Voice.isRecording s = true ->
    let s' := Voice.stopRecording out s in
    Voice.isRecording s' = false /\
    Voice.notifications s' = S (Voice.notifications s) /\
    Voice.isPlaying s' = Voice.isPlaying s /\
    Voice.player_loaded s'
    = Voice.player_loaded s
      || match out with
         | Voice.StopRejected => false
         | Voice.Blob size load_ok => (size >? 0) && load_ok
         end.
Proof.
  intros out s Hr. destruct out as [| size ok]; voice_split s;
    try discriminate; repeat split; reflexivity.
Qed.

Lemma stopRecording_always_ends_recording_witness :
  let s := Voice.startRecording true Voice.constructed in
  Voice.isRecording s = true /\
  Voice.isRecording (Voice.stopRecording Voice.StopRejected s) = false /\
  Voice.player_loaded (Voice.stopRecording (Voice.Blob 0 true) s) = false.
Proof.
  intros s. split; [reflexivity|]. split.
  - apply (stopRecording_always_ends_recording Voice.StopRejected s).
    reflexivity.
  - apply (stopRecording_always_ends_recording (Voice.Blob 0 true) s
             eq_refl).
Defined.

(** X16. [startRecording] with a microphone that cannot be opened changes
    nothing and dispatches nothing.  With a microphone that is open, or
    opens, it sets [isRecording] and dispatches one ['state-change'],
    leaving [isPlaying] and the player as they are. *)
Theorem startRecording_needs_microphone :
  (forall s : Voice.t,
      Voice.mic_started s = false -> Voice.startRecording false s = s) /\
  (forall (open_ok : bool) (s : Voice.t),
      Voice.mic_started s || open_ok = true ->
      let s' := Voice.startRecording open_ok s in
      Voice.isRecording s' = true /\
      Voice.mic_started s' = true /\
      Voice.notifications s' = S (Voice.notifications s) /\
      Voice.isPlaying s' = Voice.isPlaying s /\
      Voice.player_loaded s' = Voice.player_loaded s).
Proof.
  split.
  - intros s H. voice_split s; try discriminate; reflexivity.
  - intros ok s H. voice_split s; try discriminate;
      repeat split; reflexivity.
Qed.

Lemma startRecording_needs_microphone_witness :
  Voice.startRecording false Voice.constructed = Voice.constructed /\
  Voice.isRecording (Voice.startRecording true Voice.constructed) = true.
Proof.
  split.
  - apply (proj1 startRecording_needs_microphone). reflexivity.
  - apply (proj2 startRecording_needs_microphone true Voice.constructed).
    reflexivity.
Defined.

Section VoiceBuffer.

Lemma step_keeps_loaded (op : VoiceControls.Op) (s : Voice.t) :
  Voice.player_loaded s = true ->
  Voice.player_loaded (VoiceControls.step op s) = true.
Proof.
  intros H.
  destruct op as [[ok | [| size ok] | | | ok] | index | rate | lp];
    voice_split s; try discriminate; reflexivity.
Qed.

Lemma run_keeps_loaded (ops : list VoiceControls.Op) :
  forall s, Voice.player_loaded s = true ->
            Voice.player_loaded (VoiceControls.run ops s) = true.
Proof.
  unfold VoiceControls.run.
  induction ops as [| op ops IH]; intros s H; simpl; [exact H|].
  apply IH. now apply step_keeps_loaded.
Qed.

End VoiceBuffer.

(** X17. No operation unloads the player: once a recording or a file has
    been loaded, the player stays loaded through any sequence of operations,
    and a later [play] enters Playing and dispatches a ['state-change']. *)
Theorem loaded_buffer_stays_loaded :
  forall (ops : list VoiceControls.Op) (s : Voice.t),
    Voice.player_loaded s = true ->
    let s' := VoiceControls.run ops s in
    Voice.player_loaded s' = true /\
    Voice.isPlaying (Voice.play s') = true /\
    Voice.notifications (Voice.play s') = S (Voice.notifications s').
Proof.
  intros ops s H s'. pose proof (run_keeps_loaded ops s H) as Hl.
  fold s' in Hl. split; [exact Hl|].
  unfold Voice.play. rewrite Hl. split; reflexivity.
Qed.

Lemma loaded_buffer_stays_loaded_witness :
  Voice.isPlaying
    (Voice.play
       (VoiceControls.run
          [VoiceControls.SetPreset 3;
           VoiceControls.Unit (Voice.StartRecording true);
           VoiceControls.Unit (Voice.StopRecording Voice.StopRejected)]
          (Voice.loadFile true Voice.constructed)))
  = true.
Proof.
  apply (loaded_buffer_stays_loaded
           [VoiceControls.SetPreset 3;
            VoiceControls.Unit (Voice.StartRecording true);
            VoiceControls.Unit (Voice.StopRecording Voice.StopRejected)]
           (Voice.loadFile true Voice.constructed)).
  reflexivity.
Defined.

(** Case analysis on a preset index: 0 to 6, and the rest. *)
Ltac preset_cases index :=
  destruct index as [| [[[?n | ?n |] | [?n | ?n |] |]
                       | [[?n | ?n |] | [?n | ?n |] |] |] | ?n].

(** X18. Selecting a preset is idempotent on the effect parameters, and
    the parameters after a selection depend on the state before it only
    through the vibrato frequency and the delay feedback: from two states
    that agree on these two, the same preset gives the same parameters. *)
Theorem setPreset_idempotent_and_determined :
  (forall (index : Z) (s : Voice.t),
      Voice.fx (Voice.setPreset index (Voice.setPreset index s))
      = Voice.fx (Voice.setPreset index s) /\
      Voice.currentPreset (Voice.setPreset index (Voice.setPreset index s))
      = Voice.currentPreset (Voice.setPreset index s)) /\
  (forall (index : Z) (s1 s2 : Voice.t),
      Voice.vibratoFrequency (Voice.fx s1)
      = Voice.vibratoFrequency (Voice.fx s2) ->
      Voice.delayFeedback (Voice.fx s1) = Voice.delayFeedback (Voice.fx s2) ->
      Voice.fx (Voice.setPreset index s1)
      = Voice.fx (Voice.setPreset index s2)).
Proof.
  split.
  - intros index s. split; [| reflexivity].
    unfold Voice.setPreset, Voice.dispatch_state_change.
    cbn [Voice.fx]. preset_cases index; reflexivity.
  - intros index s1 s2 Hv Hd.
    unfold Voice.setPreset, Voice.dispatch_state_change, Voice.resetFX.
    cbn [Voice.fx]. now rewrite Hv, Hd.
Qed.

Lemma setPreset_idempotent_and_determined_witness :
  Voice.fx (Voice.setPreset 2 (Voice.setPreset 6 Voice.constructed))
  = Voice.fx (Voice.setPreset 2 (Voice.setPreset 3 Voice.constructed)).
Proof.
  apply (proj2 setPreset_idempotent_and_determined); reflexivity.
Defined.

(** X19. An index outside 0..6 is accepted: it is stored as the current
    preset and the effect chain is brought to what [resetFX] gives, with
    no overlay; one ['state-change'] is dispatched as for any index. *)
Theorem setPreset_unknown_index_resets :
  forall (index : Z) (s : Voice.t),
    index < 0 \/ 6 < index ->
    Voice.fx (Voice.setPreset index s) = Voice.resetFX (Voice.fx s) /\
    Voice.currentPreset (Voice.setPreset index s) = index /\
    Voice.notifications (Voice.setPreset index s)
    = S (Voice.notifications s).
Proof.
  intros index s H. split; [| split; reflexivity].
  unfold Voice.setPreset, Voice.dispatch_state_change. cbn [Voice.fx].
  preset_cases index; try reflexivity; lia.
Qed.

Lemma setPreset_unknown_index_resets_witness :
  Voice.fx (Voice.setPreset 7 (Voice.setPreset 3 Voice.constructed))
  = Voice.resetFX (Voice.fx (Voice.setPreset 3 Voice.constructed)) /\
  Voice.currentPreset (Voice.setPreset (-1) Voice.constructed) = -1.
Proof.
  split.
  - apply (setPreset_unknown_index_resets 7). lia.
  - apply (setPreset_unknown_index_resets (-1) Voice.constructed). lia.
Defined.

(** X20. After any selection the vibrato depth is 0 unless the preset is
    4, and the delay is fully dry unless the preset is 5: the vibrato
    frequency and delay feedback that [resetFX] leaves behind belong to
    effects that are switched off.  Every selection also brings the
    player's playback rate back to 1, whatever [setPlaybackRate] had set,
    and changes neither the flags nor the loaded player. *)
Theorem setPreset_leftovers_are_switched_off :
  forall (index : Z) (rate : Q) (s : Voice.t),
    let s' := Voice.setPreset index s in
    (index <> 4 -> Voice.vibratoDepth (Voice.fx s') = 0%Q) /\
    (index <> 5 -> Voice.delayWet (Voice.fx s') = 0%Q) /\
    Voice.playbackRate (Voice.fx s') = 1%Q /\
    Voice.playbackRate
      (Voice.fx (Voice.setPreset index
                   (VoiceControls.setPlaybackRate rate s))) = 1%Q /\
    Voice.isRecording s' = Voice.isRecording s /\
    Voice.isPlaying s' = Voice.isPlaying s /\
    Voice.player_loaded s' = Voice.player_loaded s.
Proof.
  intros index rate s.
  unfold Voice.setPreset, Voice.dispatch_state_change,
    VoiceControls.setPlaybackRate.
  cbn [Voice.fx Voice.isRecording Voice.isPlaying Voice.player_loaded].
  preset_cases index; cbn;
    repeat split; try reflexivity; intros H; congruence.
Qed.

(** * Properties of the controls and components *)

Section Clamp.

(** [Math.max(lo, Math.min(hi, x))]. *)
Lemma clamp_range (lo hi x : Q) :
  (lo <= hi)%Q -> (lo <= Qmax lo (Qmin hi x) <= hi)%Q.
Proof.
  intros H. split; [apply Q.le_max_l|].
  apply Q.max_lub; [exact H | apply Q.le_min_l].
Qed.

Lemma clamp_inside (lo hi x : Q) :
  (lo <= x <= hi)%Q -> (Qmax lo (Qmin hi x) == x)%Q.
Proof.
  intros [H1 H2]. rewrite (Q.min_r hi x H2). now apply Q.max_r.
Qed.

Lemma clamp_above (lo hi x : Q) :
  (lo <= hi)%Q -> (hi <= x)%Q -> (Qmax lo (Qmin hi x) == hi)%Q.
Proof.
  intros H1 H2. rewrite (Q.min_l hi x H2). now apply Q.max_r.
Qed.

Lemma clamp_below (lo hi x : Q) :
  (x <= lo)%Q -> (Qmax lo (Qmin hi x) == lo)%Q.
Proof.
  intros H. apply Q.max_l.
  apply Qle_trans with (y := x); [apply Q.le_min_r | exact H].
Qed.

End Clamp.

(** X21. [setFilter] hands the filter a frequency between 100 and 20000:
    a frequency in that range is passed on as it is, a lower one becomes
    100 and a higher one 20000; clamping twice is clamping once. *)
Theorem setFilter_clamps :
  forall freq : Q,
    (100 <= DeckControls.setFilter freq <= 20000)%Q /\
    ((100 <= freq <= 20000)%Q -> (DeckControls.setFilter freq == freq)%Q) /\
    ((freq <= 100)%Q -> (DeckControls.setFilter freq == 100)%Q) /\
    ((20000 <= freq)%Q -> (DeckControls.setFilter freq == 20000)%Q) /\
    (DeckControls.setFilter (DeckControls.setFilter freq)
     == DeckControls.setFilter freq)%Q.
Proof.
  intros freq. unfold DeckControls.setFilter.
  assert (H : (100 <= 20000)%Q) by discriminate.
  split; [now apply clamp_range|].
  split; [apply clamp_inside|].
  split; [apply clamp_below|].
  split; [now apply clamp_above|].
  apply clamp_inside. now apply clamp_range.
Qed.

(** X22. [getLevel] is never negative.  It is 0 for a multi-channel
    reading, for minus infinity and for every level of -60 dB or less; on
    levels between -60 dB and 0 dB it is [(db + 60) / 60], which is at most
    1; a level above 0 dB gives more than 1. *)
Theorem getLevel_range :
  forall val : DeckControls.MeterValue,
    (0 <= DeckControls.getLevel val)%Q /\
    (forall values, val = DeckControls.Channels values ->
                    DeckControls.getLevel val = 0%Q) /\
    (val = DeckControls.MinusInfinity -> DeckControls.getLevel val = 0%Q) /\
    (forall db, val = DeckControls.Level db ->
       ((db <= -60)%Q -> (DeckControls.getLevel val == 0)%Q) /\
       ((-60 <= db)%Q ->
        (DeckControls.getLevel val == (db + 60) / 60)%Q) /\
       ((db <= 0)%Q -> (DeckControls.getLevel val <= 1)%Q) /\
       ((0 < db)%Q -> (1 < DeckControls.getLevel val)%Q)).
Proof.
  intros val.
  split.
  { destruct val as [vs | db |]; simpl; try apply Qle_refl.
    apply Q.le_max_l. }
  split; [intros vs ->; reflexivity|].
  split; [intros ->; reflexivity|].
  intros db ->. simpl.
  assert (Hdiv : forall a b : Q, (a <= b)%Q -> (a / 60 <= b / 60)%Q).
  { intros a b Hab. unfold Qdiv. apply Qmult_le_compat_r; [exact Hab|].
    discriminate. }
  split; [| split; [| split]].
  - intros H. apply Q.max_l.
    apply Qle_trans with (y := ((-60 + 60) / 60)%Q); [| discriminate].
    apply Hdiv. apply Qplus_le_compat; [exact H | apply Qle_refl].
  - intros H. apply Q.max_r.
    apply Qle_trans with (y := ((-60 + 60) / 60)%Q); [discriminate|].
    apply Hdiv. apply Qplus_le_compat; [exact H | apply Qle_refl].
  - intros H. apply Q.max_lub; [discriminate|].
    apply Qle_trans with (y := ((0 + 60) / 60)%Q); [| discriminate].
    apply Hdiv. apply Qplus_le_compat; [exact H | apply Qle_refl].
  - intros H.
    apply Qlt_le_trans with (y := ((db + 60) / 60)%Q); [| apply Q.le_max_r].
    apply Qlt_shift_div_l; [reflexivity|].
    apply Qle_lt_trans with (y := (0 + 60)%Q); [discriminate|].
    apply Qplus_lt_le_compat; [exact H | apply Qle_refl].
Qed.

(** X23. After a pointer move the knob's value lies between [min] and
    [max] (for [min <= max]).  An ['input'] event is dispatched exactly
    when the value changes and carries the new value; otherwise the knob is
    untouched.  Moving the pointer 120 pixels up from where it was pressed
    turns a knob that was within range to [max]. *)
Theorem knob_value_stays_in_range :
  forall (clientY : Q) (k : MixerKnob.t),
    (MixerKnob.min k <= MixerKnob.max k)%Q ->
    let k' := fst (MixerKnob.handlePointerMove clientY k) in
    let event := snd (MixerKnob.handlePointerMove clientY k) in
    (MixerKnob.min k <= MixerKnob.value k' <= MixerKnob.max k)%Q /\
    MixerKnob.min k' = MixerKnob.min k /\
    MixerKnob.max k' = MixerKnob.max k /\
    (event = None -> k' = k) /\
    (forall v, event = Some v ->
               MixerKnob.value k' = v /\ ~ (v == MixerKnob.value k)%Q) /\
    ((MixerKnob.min k <= MixerKnob.value k)%Q ->
     (MixerKnob.value
        (fst (MixerKnob.handlePointerMove (clientY - 120)
                (MixerKnob.handlePointerDown clientY k)))
      == MixerKnob.max k)%Q).
Proof.
  intros y k Hmm. unfold MixerKnob.handlePointerMove.
  set (newVal := Qmax (MixerKnob.min k) (Qmin (MixerKnob.max k) _)).
  pose proof (clamp_range (MixerKnob.min k) (MixerKnob.max k)
                (MixerKnob.dragStartValue k
                 + (MixerKnob.dragStartY k - y) / 120
                   * (MixerKnob.max k - MixerKnob.min k)) Hmm) as Hr.
  fold newVal in Hr.
  split; [| split; [| split; [| split; [| split]]]].
  - destruct (Num.eqb newVal (MixerKnob.value k)) eqn:E; cbn.
    + apply eqb_true_iff in E. now rewrite <- E.
    + exact Hr.
  - destruct (Num.eqb newVal (MixerKnob.value k)); reflexivity.
  - destruct (Num.eqb newVal (MixerKnob.value k)); reflexivity.
  - destruct (Num.eqb newVal (MixerKnob.value k)); cbn;
      [reflexivity | discriminate].
  - destruct (Num.eqb newVal (MixerKnob.value k)) eqn:E; cbn;
      intros v [= <-].
    split; [reflexivity | now apply eqb_false_iff].
  - intros Hv. clear newVal Hr. cbn [MixerKnob.handlePointerDown
      MixerKnob.value MixerKnob.min MixerKnob.max MixerKnob.dragStartY
      MixerKnob.dragStartValue].
    set (newVal := Qmax (MixerKnob.min k) (Qmin (MixerKnob.max k) _)).
    assert (Hn : (newVal == MixerKnob.max k)%Q).
    { apply clamp_above; [exact Hmm|].
      assert (E : ((y - (y - 120)) / 120 == 1)%Q) by (field).
      rewrite E, Qmult_1_l.
      apply Qle_trans with
        (y := (MixerKnob.min k + (MixerKnob.max k - MixerKnob.min k))%Q).
      - assert (E2 : (MixerKnob.min k
                      + (MixerKnob.max k - MixerKnob.min k)
                      == MixerKnob.max k)%Q) by ring.
        rewrite E2. apply Qle_refl.
      - apply Qplus_le_compat; [exact Hv | apply Qle_refl]. }
    destruct (Num.eqb newVal (MixerKnob.value k)) eqn:E; cbn.
    + apply eqb_true_iff in E. now rewrite <- E.
    + exact Hn.
Qed.

Lemma knob_value_stays_in_range_witness :
  let k := MixerKnob.handlePointerDown 300
             {| MixerKnob.value := 120; MixerKnob.min := 60;
                MixerKnob.max := 180; MixerKnob.dragStartY := 0;
                MixerKnob.dragStartValue := 0 |} in
  (60 <= MixerKnob.value (fst (MixerKnob.handlePointerMove 0 k)) <= 180)%Q.
Proof.
  intros k. apply (knob_value_stays_in_range 0 k). discriminate.
Defined.

Section MasterTempoKnob.

(** [Math.round] of a number between two integers stays between them. *)
Lemma round_between (lo hi : Z) (x : Q) :
  (inject_Z lo <= x <= inject_Z hi)%Q -> lo <= Num.Math_round x <= hi.
Proof.
  intros [H1 H2]. unfold Num.Math_round. split.
  - rewrite <- (Qfloor_Z lo). apply Qfloor_resp_le.
    apply Qle_trans with (y := x); [exact H1|].
    rewrite <- (Qplus_0_r x) at 1.
    apply Qplus_le_compat; [apply Qle_refl | discriminate].
  - assert (H : (x + (1 # 2) <= inject_Z hi + (1 # 2))%Q)
      by (apply Qplus_le_compat; [exact H2 | apply Qle_refl]).
    apply Qfloor_resp_le in H.
    assert (E : Qfloor (inject_Z hi + (1 # 2)) = hi).
    { unfold Qfloor, inject_Z, Qplus. cbn [Qnum Qden].
      replace (hi * 2 + 1 * 1) with (1 + hi * 2) by lia.
      change (Z.pos (1 * 2)) with 2.
      rewrite Z.div_add by lia. reflexivity. }
    lia.
Qed.

End MasterTempoKnob.

(** X24. Turning the BPM knob either dispatches nothing and changes
    nothing, or sets both the displayed tempo and the engine's master
    tempo to the same integer between 60 and 180; the master tempo set
    from the knob is therefore always positive. *)
Theorem bpm_knob_sets_integer_tempo_in_range :
  forall (y0 y1 : Q) (p : PromptDjMidi.t),
    let p' := PromptDjMidi.dragBpmKnob y0 y1 p in
    p' = p \/
    exists n : Z,
      60 <= n <= 180 /\
      PromptDjMidi.masterBpm p' = inject_Z n /\
      AudioEngine.masterBpm (PromptDjMidi.audioEngine p') = inject_Z n /\
      (0 < AudioEngine.masterBpm (PromptDjMidi.audioEngine p'))%Q.
Proof.
  intros y0 y1 p. unfold PromptDjMidi.dragBpmKnob.
  set (k := MixerKnob.handlePointerDown y0 (PromptDjMidi.bpmKnob p)).
  unfold MixerKnob.handlePointerMove.
  set (newVal := Qmax (MixerKnob.min k) (Qmin (MixerKnob.max k) _)).
  assert (Hr : (60 <= newVal <= 180)%Q)
    by (apply (clamp_range 60 180); discriminate).
  destruct (negb (Num.eqb newVal (MixerKnob.value k))); cbn [snd];
    [| now left].
  right. exists (Num.Math_round newVal).
  pose proof (round_between 60 180 newVal Hr) as Hn.
  split; [exact Hn|]. split; [reflexivity|]. split; [reflexivity|].
  change (inject_Z 0 < inject_Z (Num.Math_round newVal))%Q.
  rewrite <- Zlt_Qlt. lia.
Qed.

(** X25. A MIDI control change other than 7 and 10 changes nothing.
    Controller 10 with a 7-bit value sets the crossfade, and the value
    shown, to [value / 127], which lies in [0, 1] (0 at 0, 1 at 127).
    Controller 7 with value 0 mutes the master output and with a positive
    value sets the gain [value / 127].  The decks and the master tempo are
    never touched. *)
Theorem midi_control_changes :
  forall (cc value : Z) (p : PromptDjMidi.t),
    let p' := PromptDjMidi.handleMidiCC cc value p in
    PromptDjMidi.audioEngine p' = PromptDjMidi.audioEngine p /\
    PromptDjMidi.masterBpm p' = PromptDjMidi.masterBpm p /\
    (cc <> 7 -> cc <> 10 -> p' = p) /\
    (cc = 10 ->
     PromptDjMidi.crossfader_fade p' = (inject_Z value / 127)%Q /\
     PromptDjMidi.xFaderValue p' = PromptDjMidi.crossfader_fade p' /\
     (0 <= value <= 127 ->
      (0 <= PromptDjMidi.crossfader_fade p' <= 1)%Q)) /\
    (cc = 7 ->
     (value = 0 ->
      PromptDjMidi.masterOutput_volume p' = Some PromptDjMidi.Muted) /\
     (0 < value ->
      PromptDjMidi.masterOutput_volume p'
      = Some (PromptDjMidi.GainOf (inject_Z value / 127)%Q))).
Proof.
  intros cc value p. unfold PromptDjMidi.handleMidiCC.
  destruct (Z.eqb_spec cc 10) as [-> | H10];
    [| destruct (Z.eqb_spec cc 7) as [-> | H7]]; cbn.
  - repeat split; try reflexivity; try congruence.
    + apply Qle_shift_div_l; [reflexivity|].
      rewrite Qmult_0_l. change 0%Q with (inject_Z 0).
      rewrite <- Zle_Qle. lia.
    + apply Qle_shift_div_r; [reflexivity|].
      rewrite Qmult_1_l. change 127%Q with (inject_Z 127).
      rewrite <- Zle_Qle. lia.
  - repeat split; try reflexivity; try congruence.
    + intros ->. reflexivity.
    + intros Hv.
      replace (Num.eqb (inject_Z value / 127) 0) with false; [reflexivity|].
      symmetry. apply eqb_false_iff. intros E.
      assert (Hp : (0 < inject_Z value / 127)%Q).
      { apply Qlt_shift_div_l; [reflexivity|].
        rewrite Qmult_0_l. change 0%Q with (inject_Z 0).
        rewrite <- Zlt_Qlt. exact Hv. }
      rewrite E in Hp. discriminate Hp.
  - repeat split; try reflexivity; congruence.
Qed.

Section DeckComponent.

Lemma handleRate_deck (r : Q) (c : DjDeck.t) :
  DjDeck.isSynced c = Deck.isSynced (DjDeck.deck c) ->
  let c' := DjDeck.handleRate r c in
  DjDeck.isSynced c' = false /\
  Deck.isSynced (DjDeck.deck c') = false /\
  Deck.playbackRate (DjDeck.deck c') = r /\
  DjDeck.rate c' = r /\
  DjDeck.id c' = DjDeck.id c.
Proof.
  destruct c as [id playing synced bpm rate e].
  unfold DjDeck.handleRate, DjDeck.toggleSync, DjDeck.deck.
  cbn [DjDeck.isSynced DjDeck.id DjDeck.engine DjDeck.rate].
  intros H. destruct synced.
  - unfold AudioEngine.setRate, AudioEngine.toggleSync.
    cbn [DjDeck.isSynced DjDeck.id DjDeck.engine DjDeck.rate].
    rewrite !deck_set_deck_same. unfold Deck.toggleSync.
    rewrite <- H. cbn. repeat split; reflexivity.
  - unfold AudioEngine.setRate. rewrite !deck_set_deck_same.
    cbn. rewrite <- H. repeat split; reflexivity.
Qed.

End DeckComponent.

(** X26. Turning the RATE knob of a deck component whose sync flag agrees
    with its deck leaves the deck not synced and playing at the rate of the
    knob, with the component showing the same; a later change of the master
    tempo does not alter that rate. *)
Theorem manual_rate_overrides_sync :
  forall (r b : Q) (c : DjDeck.t),
    DjDeck.isSynced c = Deck.isSynced (DjDeck.deck c) ->
    let c' := DjDeck.handleRate r c in
    DjDeck.isSynced c' = false /\
    Deck.isSynced (DjDeck.deck c') = false /\
    Deck.playbackRate (DjDeck.deck c') = r /\
    DjDeck.rate c' = r /\
    Deck.playbackRate (DjDeck.deck (DjDeck.masterTempoChanged b c')) = r.
Proof.
  intros r b c H c'.
  destruct (handleRate_deck r c H) as (H1 & H2 & H3 & H4 & H5).
  fold c' in H1, H2, H3, H4, H5.
  repeat split; try assumption.
  unfold DjDeck.masterTempoChanged, DjDeck.deck in *.
  cbn [DjDeck.id DjDeck.engine].
  rewrite deck_setMasterBpm. unfold AudioEngine.sync_if_synced.
  now rewrite H2.
Qed.

Lemma manual_rate_overrides_sync_witness :
  let c := DjDeck.toggleSync
             {| DjDeck.id := AudioEngine.A; DjDeck.isPlaying := false;
                DjDeck.isSynced := false; DjDeck.bpm := 100;
                DjDeck.rate := 1;
                DjDeck.engine :=
                  AudioEngine.loaded_with AudioEngine.A 100
                    AudioEngine.init |} in
  Deck.playbackRate
    (DjDeck.deck (DjDeck.masterTempoChanged 150 (DjDeck.handleRate 0.9 c)))
  = 0.9%Q.
Proof.
  intros c. apply (manual_rate_overrides_sync 0.9 150 c). reflexivity.
Defined.

Section Dashboard.

Import VoiceDashboard.

Lemma silent_step_keeps_flags (op : VoiceControls.Op) (s : Voice.t) :
  Voice.notifications (VoiceControls.step op s) = Voice.notifications s ->
  Voice.isRecording (VoiceControls.step op s) = Voice.isRecording s /\
  Voice.isPlaying (VoiceControls.step op s) = Voice.isPlaying s /\
  Voice.currentPreset (VoiceControls.step op s) = Voice.currentPreset s.
Proof.
  destruct op as [[ok | [| size ok] | | | ok] | index | rate | lp];
    voice_split s; intros H; try (exfalso; lia); auto.
Qed.

Lemma step_keeps_loop (op : VoiceControls.Op) (s : Voice.t) :
  (forall l, op <> VoiceControls.ToggleLoop l) ->
  Voice.player_loop (VoiceControls.step op s) = Voice.player_loop s.
Proof.
  destruct op as [[ok | [| size ok] | | | ok] | index | rate | lp];
    intros Hop; try (exfalso; now apply (Hop lp));
    voice_split s; reflexivity.
Qed.

(** An engine operation run from a component that is in step, followed by
    the listener, leaves the component in step. *)
Lemma with_engine_in_step (op : VoiceControls.Op) (d : t) :
  (forall l, op <> VoiceControls.ToggleLoop l) ->
  in_step d -> in_step (with_engine (VoiceControls.step op) d).
Proof.
  intros Hop (Hr & Hp & Hc & Hl). unfold with_engine.
  pose proof (step_keeps_loop op (engine d) Hop) as Hloop.
  destruct (Nat.eqb_spec
              (Voice.notifications (VoiceControls.step op (engine d)))
              (Voice.notifications (engine d))) as [E | _].
  - destruct (silent_step_keeps_flags op (engine d) E) as (K1 & K2 & K3).
    unfold in_step. cbn. rewrite K1, K2, K3, Hloop. auto.
  - unfold in_step, syncState. cbn. rewrite Hloop. auto.
Qed.

Lemma act_in_step (a : Action) (d : t) : in_step d -> in_step (act a d).
Proof.
  intros H. destruct a as [ok out | | | idx | | ok]; cbn [act].
  - unfold toggleRec. destruct (isRecording d).
    + apply (with_engine_in_step
               (VoiceControls.Unit (Voice.StopRecording out)));
        [discriminate | exact H].
    + apply (with_engine_in_step
               (VoiceControls.Unit (Voice.StartRecording ok)));
        [discriminate | exact H].
  - unfold togglePlay. destruct (isPlaying d).
    + apply (with_engine_in_step (VoiceControls.Unit Voice.Stop));
        [discriminate | exact H].
    + apply (with_engine_in_step (VoiceControls.Unit Voice.Play));
        [discriminate | exact H].
  - apply (with_engine_in_step (VoiceControls.Unit Voice.Stop));
      [discriminate | exact H].
  - apply (with_engine_in_step (VoiceControls.SetPreset idx));
      [discriminate | exact H].
  - destruct H as (Hr & Hp & Hc & Hl).
    unfold toggleLoop, with_engine. cbn [engine].
    change (Voice.notifications
              (VoiceControls.toggleLoop (negb (isLooping d)) (engine d)))
      with (Voice.notifications (engine d)).
    rewrite Nat.eqb_refl. unfold in_step. cbn. auto.
  - apply (with_engine_in_step
             (VoiceControls.Unit (Voice.LoadFile ok)));
      [discriminate | exact H].
Qed.

Lemma run_in_step (actions : list Action) :
  forall d, in_step d -> in_step (run actions d).
Proof.
  unfold run. induction actions as [| a actions IH]; intros d H; simpl.
  - exact H.
  - apply IH. now apply act_in_step.
Qed.

End Dashboard.

(** X27. The voice dashboard stays in step with its engine: connected to
    a newly constructed engine, and after any sequence of its buttons (REC,
    PLAY, STOP, presets, LOOP, OPEN) with any outcome of the microphone,
    recorder and loader, the flags and the preset it shows are those of the
    engine, and its loop flag is the player's. *)
Theorem dashboard_shows_engine_state :
  VoiceDashboard.in_step (VoiceDashboard.connected Voice.constructed) /\
  (forall (actions : list VoiceDashboard.Action) (d : VoiceDashboard.t),
      VoiceDashboard.in_step d ->
      VoiceDashboard.in_step (VoiceDashboard.run actions d)).
Proof.
  split.
  - repeat split; reflexivity.
  - intros actions d H. now apply run_in_step.
Qed.

Lemma dashboard_shows_engine_state_witness :
  VoiceDashboard.in_step
    (VoiceDashboard.run
       [VoiceDashboard.HandleFileLoad true;
        VoiceDashboard.ToggleRec true Voice.StopRejected;
        VoiceDashboard.TogglePlay;
        VoiceDashboard.ToggleLoop;
        VoiceDashboard.SetPreset 4;
        VoiceDashboard.ToggleRec true (Voice.Blob 0 false)]
       (VoiceDashboard.connected Voice.constructed)).
Proof.
  apply (proj2 dashboard_shows_engine_state).
  apply (proj1 dashboard_shows_engine_state).
Defined.

(** X28. On a dashboard that is in step with its engine the buttons
    toggle what they show.  PLAY stops a playing unit, and starts an idle
    one exactly when a buffer is loaded.  REC ends a recording whatever the
    recorder answers, and starts one exactly when the microphone is open or
    can be opened; it does not look at [isPlaying], nor PLAY at
    [isRecording]. *)
Theorem dashboard_buttons_toggle :
  forall d : VoiceDashboard.t,
    VoiceDashboard.in_step d ->
    let e := VoiceDashboard.engine d in
    (forall (open_ok : bool) (out : Voice.StopOutcome),
        let e' := VoiceDashboard.engine
                    (VoiceDashboard.toggleRec open_ok out d) in
        Voice.isRecording e'
        = (if Voice.isRecording e then false
           else Voice.mic_started e || open_ok) /\
        Voice.isPlaying e' = Voice.isPlaying e) /\
    (let e' := VoiceDashboard.engine (VoiceDashboard.togglePlay d) in
     Voice.isPlaying e'
     = (if Voice.isPlaying e then false else Voice.player_loaded e) /\
     Voice.isRecording e' = Voice.isRecording e).
Proof.
  intros d (Hr & Hp & _ & _) e. subst e.
  destruct d as [drec dplay dloop dpreset s].
  cbn [VoiceDashboard.isRecording VoiceDashboard.isPlaying
       VoiceDashboard.engine] in *.
  assert (Heng : forall f dd,
             VoiceDashboard.engine (VoiceDashboard.with_engine f dd)
             = f (VoiceDashboard.engine dd)).
  { intros f dd. unfold VoiceDashboard.with_engine.
    destruct (Nat.eqb _ _); reflexivity. }
  split.
  - intros ok out. unfold VoiceDashboard.toggleRec.
    cbn [VoiceDashboard.isRecording]. subst drec.
    destruct (Voice.isRecording s) eqn:E; rewrite Heng;
      cbn [VoiceDashboard.engine].
    + destruct out as [| size lok]; voice_split s; try discriminate;
        split; reflexivity.
    + voice_split s; try discriminate; split; reflexivity.
  - unfold VoiceDashboard.togglePlay.
    cbn [VoiceDashboard.isPlaying]. subst dplay.
    destruct (Voice.isPlaying s) eqn:E; rewrite Heng;
      cbn [VoiceDashboard.engine];
      voice_split s; try discriminate; split; reflexivity.
Qed.

Lemma dashboard_buttons_toggle_witness :
  let d := VoiceDashboard.handleFileLoad true
             (VoiceDashboard.connected Voice.constructed) in
  Voice.isPlaying (VoiceDashboard.engine (VoiceDashboard.togglePlay d))
  = true.
Proof.
  intros d.
  apply (proj2 (dashboard_buttons_toggle d
                  ltac:(repeat split; reflexivity))).
Defined.
